(** * Track lifecycle of the RTC low-level API

  A shallow embedding of [audio_track_i.h] and [video_track_i.h]
  (namespace [agora::rtc]): the three [DetachReason] enumerations, the
  declared return types of the lifecycle operations, the bodies the headers
  do define (the [ILocalVideoTrackEx] constructor with its static id
  generator, [TrackId], [setUserId], [getUserId], the base-class
  [registerTrackObserver] and [getStatistics]), followed by the track state
  machine and the filter chain, whose implementations are pure virtual in
  the headers and are therefore modelled from the specification.  The
  inline code of
  [audio_node_stat_i.h] ([AudioFrameHandleInfo]), [media_recorder_i.h]
  ([VDataInfo], [ADataInfo]) and [content_inspect_i.h]
  ([ContentInspectConfigEx]) is embedded as well. *)

From stdpp Require Import base numbers list strings gmap.

Local Open Scope Z_scope.

(** ** C++ scalar types *)

(** [int] is 32 bits wide on every platform the SDK ships for. *)
Definition INT_MIN : Z := - 2 ^ 31.
Definition INT_MAX : Z := 2 ^ 31 - 1.

Definition in_int (z : Z) : Prop := INT_MIN ≤ z ≤ INT_MAX.

(** Reduction of a mathematical integer to the [int] it is stored as;
  [std::atomic<int>] arithmetic wraps in two's complement. *)
Definition wrap_int (z : Z) : Z := (z + 2 ^ 31) `mod` 2 ^ 32 - 2 ^ 31.

(** [uid_t] is [unsigned int]. *)
Definition uid_t : Type := Z.

(** The return types that occur in the declarations considered here. *)
Inductive CType : Type := TVoid | TBool | TInt.

Global Instance CType_eq_dec : EqDecision CType.
Proof. solve_decision. Defined.

(** ** [class ILocalAudioTrackEx] (audio_track_i.h) *)
Module ILocalAudioTrackEx.

(** [enum DetachReason { MANUAL, TRACK_DESTROY, MIXER_DESTROY };] *)
Inductive DetachReason : Type := MANUAL | TRACK_DESTROY | MIXER_DESTROY.

Global Instance DetachReason_eq_dec : EqDecision DetachReason.
Proof. solve_decision. Defined.

(** The enumerators in declaration order. *)
Definition DetachReason_all : list DetachReason :=
  [MANUAL; TRACK_DESTROY; MIXER_DESTROY].

(** The integer value of an unscoped enumerator. *)
Definition DetachReason_value (r : DetachReason) : Z :=
  match r with MANUAL => 0 | TRACK_DESTROY => 1 | MIXER_DESTROY => 2 end.

Definition DetachReason_name (r : DetachReason) : string :=
  match r with
  | MANUAL => "MANUAL"
  | TRACK_DESTROY => "TRACK_DESTROY"
  | MIXER_DESTROY => "MIXER_DESTROY"
  end.

Section Defaults.
(** [struct PacketStats;] is only forward-declared in the header. *)
Variable PacketStats : Type.

(** [virtual bool getStatistics(PacketStats& stats) { return true; }]
      The reference parameter is threaded through: the function returns
      its result together with the caller's object after the call. *)
Definition getStatistics (stats : PacketStats) : bool * PacketStats :=
    (true, stats).
End Defaults.

End ILocalAudioTrackEx.

(** ** [class ILocalVideoTrackEx] (video_track_i.h) *)
Module ILocalVideoTrackEx.

(** [enum DetachReason { MANUAL, TRACK_DESTROY, NETWORK_DESTROY, CODEC_CHANGE};] *)
Inductive DetachReason : Type :=
  MANUAL | TRACK_DESTROY | NETWORK_DESTROY | CODEC_CHANGE.

Global Instance DetachReason_eq_dec : EqDecision DetachReason.
Proof. solve_decision. Defined.

Definition DetachReason_all : list DetachReason :=
  [MANUAL; TRACK_DESTROY; NETWORK_DESTROY; CODEC_CHANGE].

Definition DetachReason_value (r : DetachReason) : Z :=
  match r with
  | MANUAL => 0 | TRACK_DESTROY => 1 | NETWORK_DESTROY => 2 | CODEC_CHANGE => 3
  end.

Definition DetachReason_name (r : DetachReason) : string :=
  match r with
  | MANUAL => "MANUAL"
  | TRACK_DESTROY => "TRACK_DESTROY"
  | NETWORK_DESTROY => "NETWORK_DESTROY"
  | CODEC_CHANGE => "CODEC_CHANGE"
  end.

(** The data members the class itself declares and uses:
    [const int id_;] and [uid_t user_id_;].  ([track_observers_] is a
    [utils::WeakObserversFacility], a class outside these headers that no
    body in the header touches.) *)
Record t : Type := mk { id_ : Z; user_id_ : uid_t }.

(** [ILocalVideoTrackEx() : id_(id_generator_++) {}]
    [id_generator_] is [static std::atomic<int>]: the process-wide counter
    is passed in and returned.  The post-increment hands out the old value
    and stores the successor, wrapped to [int].  [user_id_] has no
    initialiser, so its initial content [garbage] is whatever the storage
    held. *)
Definition ctor (garbage : uid_t) (id_generator_ : Z) : t * Z :=
  ({| id_ := id_generator_; user_id_ := garbage |},
   wrap_int (id_generator_ + 1)).

(** [int TrackId() const { return id_; }] *)
Definition TrackId (this : t) : Z := id_ this.

(** [virtual int setUserId(uid_t uid) { user_id_ = uid; return 0; }] *)
Definition setUserId (uid : uid_t) (this : t) : Z * t :=
  (0, {| id_ := id_ this; user_id_ := uid |}).

(** [virtual uid_t getUserId() { return user_id_; }] *)
Definition getUserId (this : t) : uid_t := user_id_ this.

Section Defaults.
Variable Observer : Type.

(** [virtual bool registerTrackObserver(std::shared_ptr<IVideoTrackObserver> observer) { return false; }] *)
Definition registerTrackObserver (observer : Observer) (this : t) : bool * t :=
    (false, this).

(** [virtual bool unregisterTrackObserver(IVideoTrackObserver* observer) { return false; }] *)
Definition unregisterTrackObserver (observer : Observer) (this : t) : bool * t :=
    (false, this).
End Defaults.

End ILocalVideoTrackEx.

(** ** [class IRemoteVideoTrackEx] (video_track_i.h) *)
Module IRemoteVideoTrackEx.

(** [enum DetachReason { MANUAL, TRACK_DESTROY, NETWORK_DESTROY };] *)
Inductive DetachReason : Type := MANUAL | TRACK_DESTROY | NETWORK_DESTROY.

Global Instance DetachReason_eq_dec : EqDecision DetachReason.
Proof. solve_decision. Defined.

Definition DetachReason_all : list DetachReason :=
  [MANUAL; TRACK_DESTROY; NETWORK_DESTROY].

Definition DetachReason_value (r : DetachReason) : Z :=
  match r with MANUAL => 0 | TRACK_DESTROY => 1 | NETWORK_DESTROY => 2 end.

Definition DetachReason_name (r : DetachReason) : string :=
  match r with
  | MANUAL => "MANUAL"
  | TRACK_DESTROY => "TRACK_DESTROY"
  | NETWORK_DESTROY => "NETWORK_DESTROY"
  end.

Section Defaults.
(** [Observer] is the observer type; [This] is the state of the object the
    member function is called on (the class itself declares one data
    member, [track_observers_], of a class outside these headers). *)
Variables (Observer This : Type).

(** [virtual bool registerTrackObserver(std::shared_ptr<IVideoTrackObserver> observer) { return false; }] *)
Definition registerTrackObserver (observer : Observer) (this : This) : bool * This :=
  (false, this).

(** [virtual bool unregisterTrackObserver(IVideoTrackObserver* observer) { return false; }] *)
Definition unregisterTrackObserver (observer : Observer) (this : This) : bool * This :=
  (false, this).
End Defaults.

End IRemoteVideoTrackEx.


(** ** The track variants and their declarations *)

(** The interfaces that declare [attach] and [detach]. *)
Inductive TrackVariant : Type := LocalAudio | LocalVideo | RemoteVideo.

Global Instance TrackVariant_eq_dec : EqDecision TrackVariant.
Proof. solve_decision. Defined.

(** The [DetachReason] enumeration nested in each interface. *)
Definition DetachReasonOf (v : TrackVariant) : Type :=
  match v with
  | LocalAudio => ILocalAudioTrackEx.DetachReason
  | LocalVideo => ILocalVideoTrackEx.DetachReason
  | RemoteVideo => IRemoteVideoTrackEx.DetachReason
  end.

Definition detach_reason_name (v : TrackVariant) : DetachReasonOf v → string :=
  match v with
  | LocalAudio => ILocalAudioTrackEx.DetachReason_name
  | LocalVideo => ILocalVideoTrackEx.DetachReason_name
  | RemoteVideo => IRemoteVideoTrackEx.DetachReason_name
  end.

Definition detach_reasons (v : TrackVariant) : list (DetachReasonOf v) :=
  match v with
  | LocalAudio => ILocalAudioTrackEx.DetachReason_all
  | LocalVideo => ILocalVideoTrackEx.DetachReason_all
  | RemoteVideo => IRemoteVideoTrackEx.DetachReason_all
  end.

(** The enumerator names a variant's [detach] accepts. *)
Definition detach_reason_names (v : TrackVariant) : list string :=
  detach_reason_name v <$> detach_reasons v.

(** The reason set in the specification's words, {Manual, TrackDestroy,
    NetworkDestroy, CodecChange}, spelled as the C++ enumerators. *)
Definition spec_detach_reasons : list string :=
  ["MANUAL"; "TRACK_DESTROY"; "NETWORK_DESTROY"; "CODEC_CHANGE"].

(** A variant's reasons are exactly a given set of names. *)
Definition reasons_exactly (v : TrackVariant) (names : list string) : Prop :=
  ∀ s : string, s ∈ detach_reason_names v ↔ s ∈ names.

(** The lifecycle operations the headers declare on the track interfaces. *)
Inductive Operation : Type :=
  | op_attach
  | op_detach
  | op_setEnabledLLApiInternal
  | op_registerTrackObserver
  | op_unregisterTrackObserver
  | op_registerTrackObserverLLApiInternal
  | op_unregisterTrackObserverLLApiInternal
  | op_registerVideoEncodedFrameObserverLLApiInternal
  | op_unregisterVideoEncodedFrameObserverLLApiInternal.

Global Instance Operation_eq_dec : EqDecision Operation.
Proof. solve_decision. Defined.

(** The declared return type of an operation in an interface; [None] when the
    header does not declare the operation there.

    audio_track_i.h, [ILocalAudioTrackEx]:
      [virtual void attach(...) = 0;  virtual void detach(DetachReason reason) = 0;]
      [virtual int setEnabledLLApiInternal(bool enable) = 0;]
      [virtual int registerTrackObserverLLApiInternal(ILocalAudioTrackObserver* observer) = 0;]
      [virtual int unregisterTrackObserverLLApiInternal(ILocalAudioTrackObserver* observer) = 0;]
    video_track_i.h, [ILocalVideoTrackEx]:
      [virtual bool attach(const AttachInfo& info) = 0;]
      [virtual bool detach(const DetachInfo& info) = 0;]
      [virtual bool registerTrackObserver(...) { return false; }]
      [virtual bool unregisterTrackObserver(...) { return false; }]
      [virtual int setEnabledLLApiInternal(bool enable, bool action_droppable = true) = 0;]
      [virtual int registerVideoEncodedFrameObserverLLApiInternal(...) = 0;]
      [virtual int unregisterVideoEncodedFrameObserverLLApiInternal(...) = 0;]
    video_track_i.h, [IRemoteVideoTrackEx]:
      [virtual bool attach(const AttachInfo& info, REMOTE_VIDEO_STATE_REASON reason) = 0;]
      [virtual bool detach(const DetachInfo& info, REMOTE_VIDEO_STATE_REASON reason) = 0;]
      [virtual bool registerTrackObserver(...) { return false; }]
      [virtual bool unregisterTrackObserver(...) { return false; }]
      [virtual int registerVideoEncodedFrameObserverLLApiInternal(...) = 0;]
      [virtual int unregisterVideoEncodedFrameObserverLLApiInternal(...) = 0;] *)
Definition return_type (v : TrackVariant) (op : Operation) : option CType :=
  match v, op with
  | LocalAudio, op_attach => Some TVoid
  | LocalAudio, op_detach => Some TVoid
  | LocalAudio, op_setEnabledLLApiInternal => Some TInt
  | LocalAudio, op_registerTrackObserverLLApiInternal => Some TInt
  | LocalAudio, op_unregisterTrackObserverLLApiInternal => Some TInt
  | LocalAudio, _ => None
  | LocalVideo, op_attach => Some TBool
  | LocalVideo, op_detach => Some TBool
  | LocalVideo, op_setEnabledLLApiInternal => Some TInt
  | LocalVideo, op_registerTrackObserver => Some TBool
  | LocalVideo, op_unregisterTrackObserver => Some TBool
  | LocalVideo, op_registerVideoEncodedFrameObserverLLApiInternal => Some TInt
  | LocalVideo, op_unregisterVideoEncodedFrameObserverLLApiInternal => Some TInt
  | LocalVideo, _ => None
  | RemoteVideo, op_attach => Some TBool
  | RemoteVideo, op_detach => Some TBool
  | RemoteVideo, op_registerTrackObserver => Some TBool
  | RemoteVideo, op_unregisterTrackObserver => Some TBool
  | RemoteVideo, op_registerVideoEncodedFrameObserverLLApiInternal => Some TInt
  | RemoteVideo, op_unregisterVideoEncodedFrameObserverLLApiInternal => Some TInt
  | RemoteVideo, _ => None
  end.

(** An operation hands its caller an integer status code. *)
Definition returns_status_code (v : TrackVariant) (op : Operation) : Prop :=
  return_type v op = Some TInt.

(** ** Construction of local video tracks in one process *)

(** What a process does with its local video tracks through the bodies in
    the header: construct another one, or set the user id of the [i]-th. *)
Inductive ProcessStep : Type :=
  | Construct (garbage : uid_t)
  | SetUserId (i : nat) (uid : uid_t).

Record Process : Type :=
  mkProcess { id_generator_ : Z; tracks : list ILocalVideoTrackEx.t }.

Definition process_step (p : Process) (s : ProcessStep) : Process :=
  match s with
  | Construct garbage =>
      let '(trk, g) := ILocalVideoTrackEx.ctor garbage (id_generator_ p) in
      {| id_generator_ := g; tracks := tracks p ++ [trk] |}
  | SetUserId i uid =>
      {| id_generator_ := id_generator_ p;
         tracks := alter (λ trk, (ILocalVideoTrackEx.setUserId uid trk).2) i (tracks p) |}
  end.

Definition process_run (p : Process) (steps : list ProcessStep) : Process :=
  foldl process_step p steps.

(** Ids in construction order are strictly increasing. *)
Definition ids_increasing (ids : list Z) : Prop :=
  ∀ (i j : nat) (a b : Z), (i < j)%nat → ids !! i = Some a → ids !! j = Some b → a < b.

(** ** Results of the lifecycle core *)

(** Modelled from the spec: the error taxonomy of the lifecycle core (its
    section 7); the headers declare no such enumeration. *)
Inductive Error : Type :=
  | InvalidState
  | NotFound
  | DuplicateId
  | StaleReference
  | NotSupported
  | PropertyRejected.

Global Instance Error_eq_dec : EqDecision Error.
Proof. solve_decision. Defined.

(** Modelled from the spec: the outcome of an operation of the core, success
    or one error of the taxonomy. *)
Inductive Result : Type := Ok | Err (e : Error).

Global Instance Result_eq_dec : EqDecision Result.
Proof. solve_decision. Defined.

(** Modelled from the spec: how an outcome reaches the caller of an
    operation declared [int] ("0 = success, negative = error code").  The
    numbering of the errors is not fixed by the spec and is a parameter. *)
Definition status_code (errno : Error → positive) (r : Result) : Z :=
  match r with Ok => 0 | Err e => Z.neg (errno e) end.

(** Modelled from the spec: how an outcome reaches the caller of an
    operation declared [bool] (errors are reported as "boolean false"). *)
Definition succeeded (r : Result) : bool :=
  match r with Ok => true | Err _ => false end.

(** ** The track state machine *)
Module TrackStateMachine.

(** Modelled from the spec: the enabled flag of an attached track. *)
Inductive Enablement : Type := Enabled | Disabled.

(** Modelled from the spec: the states of a track, "Idle -> Attaching ->
    Attached(Enabled|Disabled) -> Detaching -> Idle or Destroyed". *)
Inductive State : Type :=
  | Idle
  | Attaching
  | Attached (e : Enablement)
  | Detaching
  | Destroyed.

Global Instance Enablement_eq_dec : EqDecision Enablement.
Proof. solve_decision. Defined.

Global Instance State_eq_dec : EqDecision State.
Proof. solve_decision. Defined.

(** Modelled from the spec: the "Attached*" states. *)
Definition is_attached (s : State) : bool :=
  match s with Attached _ => true | _ => false end.

Section Machine.
(** The attach information and the detach reason differ per variant
    ([AttachInfo], [DetachReason] of each interface). *)
Variables (Info Reason : Type).

(** Modelled from the spec: what observers are told on a transition, the old
    state, the new state and the reason of a detach.  The timestamp is
    stamped by the asynchronous dispatcher and is not part of the machine. *)
Record Notification : Type :=
  mkNotification { old_state : State; new_state : State; why : option Reason }.

(** Modelled from the spec: a track as the state machine sees it: its state,
    the attach binding published by a successful [attach] (holding the
    attach information), and the notifications queued for the observers. *)
Record Track : Type :=
  mkTrack { state : State; binding : option Info; pending : list Notification }.

(** Modelled from the spec: a track as the factory creates it, [Idle]. *)
Definition create : Track :=
  {| state := Idle; binding := None; pending := [] |}.

(** Modelled from the spec: "attach(info): valid only from Idle; fails with
    InvalidState if already attached.  On success transitions to
    Attached(Enabled) by default.  Side effect: publishes an AttachBinding".
    The pass through [Attaching] happens inside the call. *)
Definition attach (info : Info) (t : Track) : Result * Track :=
  match state t with
  | Idle =>
      (Ok, {| state := Attached Enabled;
              binding := Some info;
              pending := pending t ++ [mkNotification Idle (Attached Enabled) None] |})
  | _ => (Err InvalidState, t)
  end.

(** Modelled from the spec: "detach(info, reason): valid from any Attached*
    state; always succeeds if currently attached, is a no-op (not an error)
    if already Idle.  Reason ... is delivered to observers for diagnostics,
    not used to alter transition logic."  The spec gives [detach] no meaning
    in the transient and terminal states; the operation is not legal there
    and the model answers [InvalidState]. *)
Definition detach (reason : Reason) (t : Track) : Result * Track :=
  match state t with
  | Attached e =>
      (Ok, {| state := Idle;
              binding := None;
              pending := pending t ++ [mkNotification (Attached e) Idle (Some reason)] |})
  | Idle => (Ok, t)
  | _ => (Err InvalidState, t)
  end.

(** Modelled from the spec: the flag [setEnabled] is given, as a state. *)
Definition enablement_of (enable : bool) : Enablement :=
  if enable then Enabled else Disabled.

(** Modelled from the spec: "setEnabled(bool): valid only while Attached*;
    toggles between Enabled/Disabled without tearing down the
    AttachBinding." *)
Definition setEnabled (enable : bool) (t : Track) : Result * Track :=
  match state t with
  | Attached e =>
      (Ok, {| state := Attached (enablement_of enable);
              binding := binding t;
              pending := pending t ++
                [mkNotification (Attached e) (Attached (enablement_of enable)) None] |})
  | _ => (Err InvalidState, t)
  end.

(** Modelled from the spec: the calls an application makes on a track. *)
Inductive Call : Type :=
  | CallAttach (info : Info)
  | CallDetach (reason : Reason)
  | CallSetEnabled (enable : bool).

(** Modelled from the spec: the call is an [attach]. *)
Definition is_attach_call (c : Call) : bool :=
  match c with CallAttach _ => true | _ => false end.

(** Modelled from the spec: one call, with its outcome and the track after. *)
Definition call (c : Call) (t : Track) : Result * Track :=
  match c with
  | CallAttach info => attach info t
  | CallDetach reason => detach reason t
  | CallSetEnabled enable => setEnabled enable t
  end.

(** Modelled from the spec: a history of serialized calls on one track,
    oldest first ("mutating operations on a given track's state machine must
    be mutually exclusive"). *)
Definition run (t : Track) (history : list Call) : Track :=
  foldl (λ t c, (call c t).2) t history.

End Machine.

Arguments mkNotification {Reason} _ _ _.
Arguments old_state {Reason} _.
Arguments new_state {Reason} _.
Arguments why {Reason} _.
Arguments mkTrack {Info Reason} _ _ _.
Arguments state {Info Reason} _.
Arguments binding {Info Reason} _.
Arguments pending {Info Reason} _.
Arguments create {Info Reason}.
Arguments attach {Info Reason} _ _.
Arguments detach {Info Reason} _ _.
Arguments setEnabled {Info Reason} _ _.
Arguments CallAttach {Info Reason} _.
Arguments CallDetach {Info Reason} _.
Arguments CallSetEnabled {Info Reason} _.
Arguments is_attach_call {Info Reason} _.
Arguments call {Info Reason} _ _.
Arguments run {Info Reason} _ _.

End TrackStateMachine.

(** ** The filter chain *)
Module FilterChain.

(** Modelled from the spec: the positions a filter can be installed at,
    "post-capturer, pre-encoder, pre-renderer".  The enumeration
    [media::base::VIDEO_MODULE_POSITION] is declared outside these headers;
    [POSITION_POST_CAPTURER] and [POSITION_PRE_RENDERER] occur in them as
    default arguments. *)
Inductive VIDEO_MODULE_POSITION : Type :=
  | POSITION_POST_CAPTURER
  | POSITION_PRE_RENDERER
  | POSITION_PRE_ENCODER.

Global Instance VIDEO_MODULE_POSITION_eq_dec : EqDecision VIDEO_MODULE_POSITION.
Proof. solve_decision. Defined.

(** Modelled from the spec: what happens when [addFilter] meets an (id,
    position) that is already present: reject with [DuplicateId], or replace
    when "replace semantics are explicitly chosen". *)
Inductive DuplicatePolicy : Type := Reject | Replace.

Section Chain.
(** [Position] is the position enumeration of the track kind, [Filter] the
    identity of a filter instance (the pointer an [agora_refptr] holds). *)
Context {Position Filter : Type}.
Context `{!EqDecision Position, !EqDecision Filter}.

(** Modelled from the spec: one installed filter stage: the instance, the id
    it was registered under and its bypass flag. *)
Record Entry : Type :=
  mkEntry { entry_filter : Filter; entry_id : string; entry_enabled : bool }.

(** Modelled from the spec: the chain, for each position the ordered list of
    installed filters (insertion order). *)
Definition Chain : Type := Position → list Entry.

(** Modelled from the spec: the chain of a track no filter was added to. *)
Definition empty : Chain := λ _, [].

(** Modelled from the spec: the observable filter list of a position. *)
Definition filters_at (p : Position) (c : Chain) : list Entry := c p.

(** Modelled from the spec: the chain with the list of one position
    exchanged. *)
Definition set_position (p : Position) (l : list Entry) (c : Chain) : Chain :=
  λ q, if decide (q = p) then l else c q.

(** Modelled from the spec: "(id, position) already present". *)
Definition has_id (i : string) (l : list Entry) : bool :=
  bool_decide (i ∈ entry_id <$> l).

(** Modelled from the spec: the filter instance is installed in the list. *)
Definition has_filter (f : Filter) (l : list Entry) : bool :=
  bool_decide (f ∈ entry_filter <$> l).

(** Modelled from the spec: replace semantics, the entry registered under
    the id of [e] gives way to [e], in place. *)
Definition replace_entry (e : Entry) (l : list Entry) : list Entry :=
  (λ x, if decide (entry_id x = entry_id e) then e else x) <$> l.

(** Modelled from the spec: "addFilter(filter, position, id): inserts at the
    tail of the ordered list for position.  Fails with DuplicateId if (id,
    position) already present (unless replace semantics are explicitly
    chosen)". *)
Definition addFilter (policy : DuplicatePolicy)
    (f : Filter) (p : Position) (i : string) (c : Chain) : Result * Chain :=
  let e := {| entry_filter := f; entry_id := i; entry_enabled := true |} in
  if has_id i (c p) then
    match policy with
    | Reject => (Err DuplicateId, c)
    | Replace => (Ok, set_position p (replace_entry e (c p)) c)
    end
  else (Ok, set_position p (c p ++ [e]) c).

(** Modelled from the spec: "removeFilter(filter, position): removes by
    identity"; a filter that is not installed at the position is [NotFound].
    (The deferral until an in-flight frame completes concerns timing only.) *)
Definition removeFilter (f : Filter) (p : Position) (c : Chain) : Result * Chain :=
  if has_filter f (c p) then
    (Ok, set_position p (filter (λ x, entry_filter x ≠ f) (c p)) c)
  else (Err NotFound, c).

(** Modelled from the spec: "enableFilter(id, position, bool): toggles bypass
    without removing the filter from the chain". *)
Definition enableFilter (i : string) (p : Position) (enable : bool) (c : Chain)
    : Result * Chain :=
  if has_id i (c p) then
    (Ok, set_position p
           ((λ x, if decide (entry_id x = i)
                  then {| entry_filter := entry_filter x; entry_id := entry_id x;
                          entry_enabled := enable |}
                  else x) <$> c p) c)
  else (Err NotFound, c).

(** Modelled from the spec: whether an id is installed at a position, the
    question [hasVideoFilterLLApiInternal(id, position)] asks. *)
Definition hasFilter (i : string) (p : Position) (c : Chain) : bool :=
  has_id i (c p).

(** Modelled from the spec: how many entries an id has at a position. *)
Definition count_id (i : string) (p : Position) (c : Chain) : nat :=
  length (filter (λ x, entry_id x = i) (c p)).

(** Modelled from the spec: the calls that change a chain. *)
Inductive Call : Type :=
  | CallAdd (policy : DuplicatePolicy) (f : Filter) (p : Position) (i : string)
  | CallRemove (f : Filter) (p : Position)
  | CallEnable (i : string) (p : Position) (enable : bool).

(** Modelled from the spec: one call, with its outcome and the chain after. *)
Definition call (k : Call) (c : Chain) : Result * Chain :=
  match k with
  | CallAdd policy f p i => addFilter policy f p i c
  | CallRemove f p => removeFilter f p c
  | CallEnable i p enable => enableFilter i p enable c
  end.

(** Modelled from the spec: a history of calls on one chain, oldest first. *)
Definition run (c : Chain) (history : list Call) : Chain :=
  foldl (λ c k, (call k c).2) c history.

(** Modelled from the spec: the invariant of a filter slot, a filter is
    "uniquely identified per (id, position) pair". *)
Definition unique_ids (c : Chain) : Prop :=
  ∀ p : Position, NoDup (entry_id <$> c p).

End Chain.

Arguments Entry : clear implicits.
Arguments Chain : clear implicits.
Arguments Call : clear implicits.

End FilterChain.

(** ** [std::copy] over arrays *)

(** [std::copy(first, first + n, dest)] on arrays held as lists: element [i]
    of the destination is overwritten with element [i] of the source, for
    [i] from 0 up to [n]. *)
Definition std_copy {A : Type} (n : nat) (src dst : list A) : list A :=
  foldl (λ d i, match src !! i with Some x => <[i:=x]> d | None => d end)
        dst (seq 0 n).

(** ** [audio_node_stat_i.h] *)

(** [enum class AUDIO_FRAME_SOURCE_TYPE] with its [static_cast<int>]. *)
Module AUDIO_FRAME_SOURCE_TYPE.

Inductive t : Type :=
  | UNKNOWN
  | RECORD
  | PUSH_DIRECT
  | PUSH_EXTERNAL
  | SIMPLE_MEDIA_PLAYER
  | FFMPEG_MEDIA_PLAYER
  | KNOWN_TYPE_COUNT.

(** [UNKNOWN = 0, RECORD = 1 << 0, PUSH_DIRECT = 1 << 1, PUSH_EXTERNAL = 1 << 2,
    SIMPLE_MEDIA_PLAYER = 1 << 3, FFMPEG_MEDIA_PLAYER = 1 << 4,
    KNOWN_TYPE_COUNT = 5] *)
Definition to_int (x : t) : Z :=
  match x with
  | UNKNOWN => 0
  | RECORD => Z.shiftl 1 0
  | PUSH_DIRECT => Z.shiftl 1 1
  | PUSH_EXTERNAL => Z.shiftl 1 2
  | SIMPLE_MEDIA_PLAYER => Z.shiftl 1 3
  | FFMPEG_MEDIA_PLAYER => Z.shiftl 1 4
  | KNOWN_TYPE_COUNT => 5
  end.

(** The enumerators that name one source. *)
Definition sources : list t :=
  [RECORD; PUSH_DIRECT; PUSH_EXTERNAL; SIMPLE_MEDIA_PLAYER; FFMPEG_MEDIA_PLAYER].

End AUDIO_FRAME_SOURCE_TYPE.

(** [struct AudioFrameHandleInfo] *)
Module AudioFrameHandleInfo.

(** [enum AUDIO_UPLINK_HANDLE_TIMING { FRAME_PTS, ..., VOS_SEND, TIMING_COUNT };] *)
Inductive AUDIO_UPLINK_HANDLE_TIMING : Type :=
  | FRAME_PTS
  | DATA_READY
  | FORMAT_FRAME
  | POST_TO_ENCODER_QUEUE
  | PRE_ENCODE
  | START_ENCODE
  | ENCODED
  | POST_TO_SEND_QUEUE
  | READY_SEND
  | VOS_SEND
  | TIMING_COUNT.

(** The value of an enumerator, as an array index. *)
Definition timing_index (x : AUDIO_UPLINK_HANDLE_TIMING) : nat :=
  match x with
  | FRAME_PTS => 0
  | DATA_READY => 1
  | FORMAT_FRAME => 2
  | POST_TO_ENCODER_QUEUE => 3
  | PRE_ENCODE => 4
  | START_ENCODE => 5
  | ENCODED => 6
  | POST_TO_SEND_QUEUE => 7
  | READY_SEND => 8
  | VOS_SEND => 9
  | TIMING_COUNT => 10
  end%nat.

(** [bool source_mute = false; int64_t time_us[TIMING_COUNT]{};
    int source_type = static_cast<int>(AUDIO_FRAME_SOURCE_TYPE::UNKNOWN);] *)
Record t : Type := mk { source_mute : bool; time_us : list Z; source_type : Z }.

(** The array member has [TIMING_COUNT] elements. *)
Definition well_formed (this : t) : Prop :=
  length (time_us this) = timing_index TIMING_COUNT.

(** [AudioFrameHandleInfo() {}]: the default member initialisers. *)
Definition ctor : t :=
  {| source_mute := false;
     time_us := replicate (timing_index TIMING_COUNT) 0;
     source_type := AUDIO_FRAME_SOURCE_TYPE.to_int AUDIO_FRAME_SOURCE_TYPE.UNKNOWN |}.

(** [AudioFrameHandleInfo& operator=(const AudioFrameHandleInfo& rhs)]:
    [source_type = rhs.source_type; source_mute = rhs.source_mute;
     std::copy(rhs.time_us, rhs.time_us + TIMING_COUNT, time_us);] *)
Definition operator_assign (rhs this : t) : t :=
  {| source_mute := source_mute rhs;
     time_us := std_copy (timing_index TIMING_COUNT) (time_us rhs) (time_us this);
     source_type := source_type rhs |}.

(** [AudioFrameHandleInfo(const AudioFrameHandleInfo& info)]: the members
    are default-initialised and the body then does what [operator=] does. *)
Definition copy_ctor (info : t) : t := operator_assign info ctor.

(** [time_us[x]]; the index is in range for every enumerator below
    [TIMING_COUNT] of a well-formed object. *)
Definition time_at (x : AUDIO_UPLINK_HANDLE_TIMING) (this : t) : Z :=
  default 0 (time_us this !! timing_index x).

(** [bool valid() const { return (source_type >= 0 && time_us[FORMAT_FRAME] > 0 &&
    time_us[VOS_SEND] > time_us[FORMAT_FRAME]); }] *)
Definition valid (this : t) : bool :=
  (0 <=? source_type this)
  && (0 <? time_at FORMAT_FRAME this)
  && (time_at FORMAT_FRAME this <? time_at VOS_SEND this).

(** The local [std::map<int, const char*> source_name] of
    [getAudioFrameSourceName]. *)
Definition source_name : gmap Z string :=
  list_to_map
    [(AUDIO_FRAME_SOURCE_TYPE.to_int AUDIO_FRAME_SOURCE_TYPE.UNKNOWN, "unknown");
     (AUDIO_FRAME_SOURCE_TYPE.to_int AUDIO_FRAME_SOURCE_TYPE.RECORD, "record");
     (AUDIO_FRAME_SOURCE_TYPE.to_int AUDIO_FRAME_SOURCE_TYPE.PUSH_DIRECT, "push-direct");
     (AUDIO_FRAME_SOURCE_TYPE.to_int AUDIO_FRAME_SOURCE_TYPE.PUSH_EXTERNAL, "push-external");
     (AUDIO_FRAME_SOURCE_TYPE.to_int AUDIO_FRAME_SOURCE_TYPE.SIMPLE_MEDIA_PLAYER,
      "simple_media_player");
     (AUDIO_FRAME_SOURCE_TYPE.to_int AUDIO_FRAME_SOURCE_TYPE.FFMPEG_MEDIA_PLAYER,
      "ffmpeg_media_player")].

(** The body of the loop of [getAudioFrameSourceName], for one [i]:
    [if (type & (1 << i)) { auto iter = source_name.find(1 << i);
       if (iter != source_name.end()) {
         if (!name.empty()) { name.push_back('|'); }
         name.append(iter->second); } }] *)
Definition append_source (type : Z) (name : string) (i : Z) : string :=
  if decide (Z.land type (Z.shiftl 1 i) ≠ 0) then
    match source_name !! Z.shiftl 1 i with
    | Some s => (if decide (name ≠ "") then name +:+ "|" else name) +:+ s
    | None => name
    end
  else name.

(** [static std::string getAudioFrameSourceName(int type)]: the loop runs
    [i] from 0 up to [KNOWN_TYPE_COUNT]; an empty result becomes "unknown". *)
Definition getAudioFrameSourceName (type : Z) : string :=
  let cnt := AUDIO_FRAME_SOURCE_TYPE.to_int AUDIO_FRAME_SOURCE_TYPE.KNOWN_TYPE_COUNT in
  let name := foldl (append_source type) "" (seqZ 0 cnt) in
  if decide (name = "") then "unknown" else name.

(** The source bits [getAudioFrameSourceName] can tell apart. *)
Definition known_bits (type : Z) : Z := Z.land type 31.

End AudioFrameHandleInfo.

(** ** [media_recorder_i.h], [class IAVDataObserver] *)

(** [struct VDataInfo] *)
Module VDataInfo.

(** [unsigned int codec; unsigned int width; unsigned int height;
    int frameType; int rotation;] *)
Record t : Type :=
  mk { codec : Z; width : Z; height : Z; frameType : Z; rotation : Z }.

(** [VDataInfo() : codec(0), width(0), height(0), frameType(0), rotation(0) {}] *)
Definition ctor : t :=
  {| codec := 0; width := 0; height := 0; frameType := 0; rotation := 0 |}.

(** [bool equal(const VDataInfo& vinfo) const { return codec == vinfo.codec &&
    width == vinfo.width && height == vinfo.height && rotation == vinfo.rotation; }] *)
Definition equal (this vinfo : t) : bool :=
  (codec this =? codec vinfo)
  && (width this =? width vinfo)
  && (height this =? height vinfo)
  && (rotation this =? rotation vinfo).

End VDataInfo.

(** [struct ADataInfo] *)
Module ADataInfo.

(** [unsigned int codec; unsigned int bitwidth; unsigned int sample_rate;
    unsigned int channel; unsigned int sample_size;] *)
Record t : Type :=
  mk { codec : Z; bitwidth : Z; sample_rate : Z; channel : Z; sample_size : Z }.

(** [ADataInfo() : codec(0), bitwidth(0), sample_rate(0), channel(0), sample_size(0) {}] *)
Definition ctor : t :=
  {| codec := 0; bitwidth := 0; sample_rate := 0; channel := 0; sample_size := 0 |}.

(** [bool equal(const ADataInfo& ainfo) const { return codec == ainfo.codec &&
    bitwidth == ainfo.bitwidth && sample_rate == ainfo.sample_rate &&
    channel == ainfo.channel; }] *)
Definition equal (this ainfo : t) : bool :=
  (codec this =? codec ainfo)
  && (bitwidth this =? bitwidth ainfo)
  && (sample_rate this =? sample_rate ainfo)
  && (channel this =? channel ainfo).

End ADataInfo.

(** ** [content_inspect_i.h] *)
Module ContentInspect.

(** [enum CONTENT_INSPECT_VENDOR { CONTENT_INSPECT_VENDOR_AGORA = 1,
    CONTENT_INSPECT_VENDOR_TUPU = 2, CONTENT_INSPECT_VENDOR_HIVE = 3 };] *)
Inductive CONTENT_INSPECT_VENDOR : Type :=
  | CONTENT_INSPECT_VENDOR_AGORA
  | CONTENT_INSPECT_VENDOR_TUPU
  | CONTENT_INSPECT_VENDOR_HIVE.

(** [enum CONTENT_INSPECT_DEVICE_TYPE] *)
Inductive CONTENT_INSPECT_DEVICE_TYPE : Type :=
  | CONTENT_INSPECT_DEVICE_INVALID
  | CONTENT_INSPECT_DEVICE_AGORA.

(** [enum CONTENT_INSPECT_WORK_TYPE] *)
Inductive CONTENT_INSPECT_WORK_TYPE : Type :=
  | CONTENT_INSPECT_WORK_DEVICE
  | CONTENT_INSPECT_WORK_CLOUD
  | CONTENT_INSPECT_WORK_DEVICE_CLOUD.

(** [enum CONTENT_INSPECT_CLOUD_TYPE] *)
Inductive CONTENT_INSPECT_CLOUD_TYPE : Type :=
  | CONTENT_INSPECT_CLOUD_INVALID
  | CONTENT_INSPECT_CLOUD_AGORA
  | CONTENT_INSPECT_CLOUD_MARKET_PLACE.

Section Config.
(** What [AgoraMediaBase.h] declares and this header only uses: the
    enumeration [CONTENT_INSPECT_TYPE] with its enumerator
    [CONTENT_INSPECT_INVALID], the array bound
    [MAX_CONTENT_INSPECT_MODULE_COUNT], the structs [ContentInspectModule]
    (with its default constructor and its members [type] and [interval]) and
    [ContentInspectConfig] (with its members [extraInfo], [serverConfig],
    [modules] and [moduleCount]; a [const char*] member is [None] when it is
    [NULL]), and the pointer type [rtc::IFileUploaderService*] with
    [nullptr]. *)
Context {CONTENT_INSPECT_TYPE ContentInspectModule ContentInspectConfig : Type}.
Context {IFileUploaderService_ptr : Type}.
Variable CONTENT_INSPECT_INVALID : CONTENT_INSPECT_TYPE.
Variable MAX_CONTENT_INSPECT_MODULE_COUNT : nat.
Variable ContentInspectModule_ctor : ContentInspectModule.
Variable module_type : ContentInspectModule → CONTENT_INSPECT_TYPE.
Variable module_interval : ContentInspectModule → Z.
Variable config_extraInfo : ContentInspectConfig → option string.
Variable config_serverConfig : ContentInspectConfig → option string.
Variable config_modules : ContentInspectConfig → list ContentInspectModule.
Variable config_moduleCount : ContentInspectConfig → Z.
Variable nullptr : IFileUploaderService_ptr.

(** [struct ContentInspectModuleEx : ContentInspectModule]: the base
    subobject, and the members the struct declares itself (its [type] and
    [interval] hide the base's). *)
Record ContentInspectModuleEx : Type :=
  mkModule {
    base : ContentInspectModule;
    type : CONTENT_INSPECT_TYPE;
    vendor : CONTENT_INSPECT_VENDOR;
    callbackUrl : string;
    token : string;
    interval : Z }.

(** [ContentInspectModuleEx() { type = CONTENT_INSPECT_INVALID; interval = 0;
    vendor = CONTENT_INSPECT_VENDOR_AGORA; }] *)
Definition ContentInspectModuleEx_ctor : ContentInspectModuleEx :=
  {| base := ContentInspectModule_ctor;
     type := CONTENT_INSPECT_INVALID;
     vendor := CONTENT_INSPECT_VENDOR_AGORA;
     callbackUrl := "";
     token := "";
     interval := 0 |}.

(** [struct ContentInspectConfigEx] *)
Record ContentInspectConfigEx : Type :=
  mkConfig {
    enable : bool;
    ContentWorkType : CONTENT_INSPECT_WORK_TYPE;
    DeviceWorkType : CONTENT_INSPECT_DEVICE_TYPE;
    CloudWorkType : CONTENT_INSPECT_CLOUD_TYPE;
    extraInfo : string;
    serverConfig : string;
    fileUploader : IFileUploaderService_ptr;
    modules : list ContentInspectModuleEx;
    moduleCount : Z }.

(** The array member has [MAX_CONTENT_INSPECT_MODULE_COUNT] elements. *)
Definition well_formed (this : ContentInspectConfigEx) : Prop :=
  length (modules this) = MAX_CONTENT_INSPECT_MODULE_COUNT.

(** The array [modules] as its default construction leaves it. *)
Definition modules_ctor : list ContentInspectModuleEx :=
  replicate MAX_CONTENT_INSPECT_MODULE_COUNT ContentInspectModuleEx_ctor.

(** [modules[i].type = ...; modules[i].interval = ...;] on one element. *)
Definition set_type_interval (ty : CONTENT_INSPECT_TYPE) (iv : Z)
    (m : ContentInspectModuleEx) : ContentInspectModuleEx :=
  {| base := base m; type := ty; vendor := vendor m;
     callbackUrl := callbackUrl m; token := token m; interval := iv |}.

(** [for(int i = 0; i < MAX_CONTENT_INSPECT_MODULE_COUNT; i++) {
      modules[i].type = src.modules[i].type;
      modules[i].interval = src.modules[i].interval; }]
    for a source array of any element type with members [type] and
    [interval]. *)
Definition copy_modules {S : Type}
    (src_type : S → CONTENT_INSPECT_TYPE) (src_interval : S → Z)
    (src : list S) (dst : list ContentInspectModuleEx) : list ContentInspectModuleEx :=
  foldl (λ d i,
           match src !! i, d !! i with
           | Some s, Some m => <[i := set_type_interval (src_type s) (src_interval s) m]> d
           | _, _ => d
           end)
        dst (seq 0 MAX_CONTENT_INSPECT_MODULE_COUNT).

(** [ContentInspectConfigEx() : enable(false),
      ContentWorkType(CONTENT_INSPECT_WORK_CLOUD), fileUploader(nullptr),
      DeviceWorkType(CONTENT_INSPECT_DEVICE_INVALID),
      CloudWorkType(CONTENT_INSPECT_CLOUD_AGORA), moduleCount(0) {}] *)
Definition ctor : ContentInspectConfigEx :=
  {| enable := false;
     ContentWorkType := CONTENT_INSPECT_WORK_CLOUD;
     DeviceWorkType := CONTENT_INSPECT_DEVICE_INVALID;
     CloudWorkType := CONTENT_INSPECT_CLOUD_AGORA;
     extraInfo := "";
     serverConfig := "";
     fileUploader := nullptr;
     modules := modules_ctor;
     moduleCount := 0 |}.

(** [ContentInspectConfigEx& operator=(const ContentInspectConfigEx& rth)] *)
Definition operator_assign (rth this : ContentInspectConfigEx) : ContentInspectConfigEx :=
  {| enable := enable rth;
     ContentWorkType := ContentWorkType rth;
     DeviceWorkType := DeviceWorkType rth;
     CloudWorkType := CloudWorkType rth;
     extraInfo := extraInfo rth;
     serverConfig := serverConfig rth;
     fileUploader := fileUploader rth;
     modules := copy_modules type interval (modules rth) (modules this);
     moduleCount := moduleCount rth |}.

(** [ContentInspectConfigEx(const ContentInspectConfigEx& rth)]: no member
    initialiser list, so the strings start empty and the modules default
    constructed; the body assigns every other member and runs the loop. *)
Definition copy_ctor (rth : ContentInspectConfigEx) : ContentInspectConfigEx :=
  {| enable := enable rth;
     ContentWorkType := ContentWorkType rth;
     DeviceWorkType := DeviceWorkType rth;
     CloudWorkType := CloudWorkType rth;
     extraInfo := extraInfo rth;
     serverConfig := serverConfig rth;
     fileUploader := fileUploader rth;
     modules := copy_modules type interval (modules rth) modules_ctor;
     moduleCount := moduleCount rth |}.

(** [ContentInspectConfigEx(bool enable, const ContentInspectConfig& config,
      rtc::IFileUploaderService* uploader, CONTENT_INSPECT_CLOUD_TYPE cloudWorkType)
      : enable(enable), ContentWorkType(CONTENT_INSPECT_WORK_CLOUD),
        fileUploader(uploader), DeviceWorkType(CONTENT_INSPECT_DEVICE_INVALID),
        CloudWorkType(cloudWorkType), moduleCount(0)]
    [if(config.extraInfo != NULL) extraInfo = config.extraInfo;]
    [if(config.serverConfig != NULL) serverConfig = config.serverConfig;]
    [moduleCount = config.moduleCount;] and the loop. *)
Definition ctor_from_config (enable_ : bool) (config : ContentInspectConfig)
    (uploader : IFileUploaderService_ptr) (cloudWorkType : CONTENT_INSPECT_CLOUD_TYPE)
    : ContentInspectConfigEx :=
  {| enable := enable_;
     ContentWorkType := CONTENT_INSPECT_WORK_CLOUD;
     DeviceWorkType := CONTENT_INSPECT_DEVICE_INVALID;
     CloudWorkType := cloudWorkType;
     extraInfo := default "" (config_extraInfo config);
     serverConfig := default "" (config_serverConfig config);
     fileUploader := uploader;
     modules := copy_modules module_type module_interval (config_modules config) modules_ctor;
     moduleCount := config_moduleCount config |}.

(** A module carries nothing beyond its [type] and [interval]: the other
    members are as the default constructor leaves them. *)
Definition plain_module (m : ContentInspectModuleEx) : Prop :=
  base m = ContentInspectModule_ctor
  ∧ vendor m = CONTENT_INSPECT_VENDOR_AGORA
  ∧ callbackUrl m = ""
  ∧ token m = "".

End Config.

End ContentInspect.

(** ** Sample content-inspect configurations *)

(** A module of type 3 with interval 5, for the vendor
    [CONTENT_INSPECT_VENDOR_TUPU], with the types of [AgoraMediaBase.h]
    read as numbers and the base part as a (type, interval) pair. *)
Definition sample_module : @ContentInspect.ContentInspectModuleEx nat (nat * Z) :=
  ContentInspect.mkModule (0%nat, 0) 3%nat ContentInspect.CONTENT_INSPECT_VENDOR_TUPU
    "https://callback" "secret" 5.

(** An enabled config with two modules, the first of them [sample_module]. *)
Definition sample_config
    : @ContentInspect.ContentInspectConfigEx nat (nat * Z) (option nat) :=
  ContentInspect.mkConfig true ContentInspect.CONTENT_INSPECT_WORK_DEVICE
    ContentInspect.CONTENT_INSPECT_DEVICE_AGORA
    ContentInspect.CONTENT_INSPECT_CLOUD_MARKET_PLACE
    "extra" "server" (Some 7%nat)
    [sample_module;
     ContentInspect.ContentInspectModuleEx_ctor 0%nat (0%nat, 0)]
    1.

(** A default-constructed config with two modules. *)
Definition fresh_config
    : @ContentInspect.ContentInspectConfigEx nat (nat * Z) (option nat) :=
  ContentInspect.ctor 0%nat 2 (0%nat, 0) None.

(** The step constructs a track. *)
Definition is_construct (s : ProcessStep) : bool :=
  match s with Construct _ => true | SetUserId _ _ => false end.

(** The number of constructions in a history. *)
Definition constructions (steps : list ProcessStep) : nat :=
  length (filter (λ s, is_construct s = true) steps).

(** ** Outcomes through the declared return types *)

(** What a caller holds after a call: nothing, a [bool] or an [int]. *)
Inductive CValue : Type := VVoid | VBool (b : bool) | VInt (z : Z).

(** Modelled from the spec: what the caller of an operation declared with
    return type [ty] receives when the outcome of the operation is [r]: an
    [int] is the status code ("0 = success, negative = error code"), a
    [bool] is false on every error, and a [void] operation hands nothing
    back. *)
Definition returned (errno : Error → positive) (ty : CType) (r : Result) : CValue :=
  match ty with
  | TVoid => VVoid
  | TBool => VBool (succeeded r)
  | TInt => VInt (status_code errno r)
  end.

(** What the caller of operation [op] of variant [v] receives when the
    outcome is [r], by the return type the header declares; [None] when the
    header declares no such operation. *)
Definition call_returns (errno : Error → positive)
    (v : TrackVariant) (op : Operation) (r : Result) : option CValue :=
  (λ ty, returned errno ty r) <$> return_type v op.

(** Modelled from the spec: [setEnabledLLApiInternal] of a local track (pure
    virtual in the headers, declared [int]): the state machine's
    [setEnabled], answered as a status code. *)
Definition setEnabledLLApiInternal {Info Reason : Type}
    (errno : Error → positive) (enable : bool)
    (t : TrackStateMachine.Track Info Reason)
    : Z * TrackStateMachine.Track Info Reason :=
  (status_code errno (TrackStateMachine.setEnabled enable t).1,
   (TrackStateMachine.setEnabled enable t).2).

(** ** The properties under study, as predicates *)

(** Every declared lifecycle operation returns an integer status code. *)
Definition all_return_status_codes : Prop :=
  ∀ (v : TrackVariant) (op : Operation),
    is_Some (return_type v op) → returns_status_code v op.

(** Every variant's [detach] takes its reason from the specification's set. *)
Definition all_reasons_from_spec_set : Prop :=
  ∀ v : TrackVariant, reasons_exactly v spec_detach_reasons.

(** [addFilter] followed at once by [removeFilter] of the same filter at the
    same position restores the filter list of that position. *)
Definition add_remove_roundtrip {Position Filter : Type}
    `{!EqDecision Position, !EqDecision Filter}
    (policy : FilterChain.DuplicatePolicy) (f : Filter) (p : Position) (i : string)
    (c : FilterChain.Chain Position Filter) : Prop :=
  FilterChain.filters_at p
    (FilterChain.removeFilter f p (FilterChain.addFilter policy f p i c).2).2
  = FilterChain.filters_at p c.

(** A process whose generator holds [g] and that has built no track yet.
    ([id_generator_] is defined in a source file outside the headers; its
    initial value is left open.) *)
Definition process_start (g : Z) : Process :=
  {| id_generator_ := g; tracks := [] |}.

(** The ids of the local video tracks of a process, in construction order. *)
Definition track_ids (p : Process) : list Z :=
  ILocalVideoTrackEx.TrackId <$> tracks p.

(** Whatever the generator holds at first and whatever the process does,
    its tracks have distinct ids that increase strictly in construction
    order. *)
Definition ids_always_unique_and_increasing : Prop :=
  ∀ (g : Z) (steps : list ProcessStep),
    in_int g →
    NoDup (track_ids (process_run (process_start g) steps))
    ∧ ids_increasing (track_ids (process_run (process_start g) steps)).

(** A video chain holding one filter, instance [1] under the id [A], at the
    post-capturer position. *)
Definition chain_with_A : FilterChain.Chain FilterChain.VIDEO_MODULE_POSITION nat :=
  FilterChain.set_position FilterChain.POSITION_POST_CAPTURER
    [FilterChain.mkEntry 1%nat "A" true] FilterChain.empty.


(** * Properties *)

Import TrackStateMachine.

(** ** Local audio track statistics *)

(** C10: the base-class [getStatistics] of a local audio track returns
    [true] for every input and hands the caller's [PacketStats] object back
    exactly as it received it. *)
Theorem getStatistics_true_and_untouched (PacketStats : Type) (stats : PacketStats) :
  ILocalAudioTrackEx.getStatistics PacketStats stats = (true, stats).
Proof. reflexivity. Qed.

(** ** Attach and detach *)

Section StateMachineFacts.
Context {Info Reason : Type}.
Implicit Types (t : Track Info Reason) (info : Info) (reason : Reason).

Lemma attach_from_idle info t :
  state t = Idle →
  attach info t =
    (Ok, mkTrack (Attached Enabled) (Some info)
           (pending t ++ [mkNotification Idle (Attached Enabled) None])).
Proof. intros Hst. unfold attach. by rewrite Hst. Qed.

Lemma attach_not_idle info t :
  state t ≠ Idle → attach info t = (Err InvalidState, t).
Proof. intros Hst. unfold attach. by destruct (state t). Qed.

Lemma attach_ok_inv info t :
  (attach info t).1 = Ok → state t = Idle.
Proof. unfold attach. by destruct (state t). Qed.

Lemma detach_idle reason t : state t = Idle → detach reason t = (Ok, t).
Proof. intros Hst. unfold detach. by rewrite Hst. Qed.

Lemma detach_attached reason t e :
  state t = Attached e →
  detach reason t =
    (Ok, mkTrack Idle None
           (pending t ++ [mkNotification (Attached e) Idle (Some reason)])).
Proof. intros Hst. unfold detach. by rewrite Hst. Qed.

Lemma setEnabled_idle enable t :
  state t = Idle → setEnabled enable t = (Err InvalidState, t).
Proof. intros Hst. unfold setEnabled. by rewrite Hst. Qed.

Lemma is_attached_spec (s : State) : is_attached s = true ↔ ∃ e, s = Attached e.
Proof.
  split.
  - destruct s; try discriminate. intros _. by eexists.
  - by intros [e ->].
Qed.

(** A call other than [attach] leaves an idle track as it is. *)
Lemma call_idle_fixed (c : Call Info Reason) t :
  state t = Idle → is_attach_call c = false → (call c t).2 = t.
Proof.
  intros Hst Hc. destruct c as [info|reason|enable]; simpl in *.
  - discriminate.
  - by rewrite detach_idle.
  - by rewrite setEnabled_idle.
Qed.

Lemma run_without_attach (history : list (Call Info Reason)) t :
  state t = Idle →
  forallb (λ c, negb (is_attach_call c)) history = true →
  run t history = t.
Proof.
  revert t. induction history as [|c history IH]; intros t Hst Hall; [done|].
  simpl in Hall. apply andb_prop in Hall as [Hc Hrest].
  apply negb_true_iff in Hc.
  unfold run. simpl. rewrite call_idle_fixed by done.
  by apply IH.
Qed.

End StateMachineFacts.

(** C1: in the track state machine of every variant, [attach] is valid only
    from [Idle]: on a track that is already attached (indeed in any state
    other than [Idle]) it fails with [InvalidState] and leaves the track
    unchanged, and whenever it succeeds the track was [Idle] and is
    [Attached Enabled] afterwards; from [Idle] it does succeed. *)
Theorem attach_valid_only_from_idle
    (Info : Type) (v : TrackVariant) (info : Info)
    (t : Track Info (DetachReasonOf v)) :
  (is_attached (state t) = true → attach info t = (Err InvalidState, t))
  ∧ (state t ≠ Idle → attach info t = (Err InvalidState, t))
  ∧ ((attach info t).1 = Ok →
       state t = Idle ∧ state (attach info t).2 = Attached Enabled)
  ∧ (state t = Idle → (attach info t).1 = Ok).
Proof.
  split_and!.
  - intros [e He]%is_attached_spec. apply attach_not_idle. by rewrite He.
  - apply attach_not_idle.
  - intros Hok. pose proof (attach_ok_inv _ _ Hok) as Hidle.
    split; [done|]. by rewrite attach_from_idle.
  - intros Hidle. by rewrite attach_from_idle.
Qed.

(** A local video track that has been attached with information [7]. *)
Lemma attach_valid_only_from_idle_witness :
  let t : Track nat (DetachReasonOf LocalVideo) := (attach 7%nat create).2 in
  is_attached (state t) = true ∧ attach 8%nat t = (Err InvalidState, t).
Proof.
  simpl. split; [reflexivity|].
  apply (proj1 (attach_valid_only_from_idle nat LocalVideo 8%nat _)). reflexivity.
Defined.

(** C2: a track on which [attach] was never called is [Idle], whatever else
    was called on it, and [detach] on it succeeds and changes nothing; the
    same holds for any [Idle] track; and [detach] on a track in an [Attached]
    state succeeds (and leaves it [Idle]). *)
Theorem detach_never_fails_idle_or_attached
    (Info : Type) (v : TrackVariant)
    (history : list (Call Info (DetachReasonOf v)))
    (reason : DetachReasonOf v) (t : Track Info (DetachReasonOf v)) :
  (forallb (λ c, negb (is_attach_call c)) history = true →
     state (run create history) = Idle
     ∧ detach reason (run create history) = (Ok, run create history))
  ∧ (state t = Idle → detach reason t = (Ok, t))
  ∧ (is_attached (state t) = true →
       (detach reason t).1 = Ok ∧ state (detach reason t).2 = Idle).
Proof.
  split_and!.
  - intros Hall. rewrite run_without_attach by done. split; [done|].
    by apply detach_idle.
  - apply detach_idle.
  - intros [e He]%is_attached_spec. by rewrite (detach_attached _ _ e).
Qed.

(** A remote video track that was only ever detached and toggled. *)
Lemma detach_never_fails_idle_or_attached_witness :
  let history : list (Call nat (DetachReasonOf RemoteVideo)) :=
    [CallDetach IRemoteVideoTrackEx.TRACK_DESTROY; CallSetEnabled true] in
  forallb (λ c, negb (is_attach_call c)) history = true
  ∧ detach IRemoteVideoTrackEx.MANUAL (run create history) = (Ok, run create history).
Proof.
  simpl. split; [reflexivity|].
  apply (proj1 (detach_never_fails_idle_or_attached nat RemoteVideo
                  [CallDetach IRemoteVideoTrackEx.TRACK_DESTROY; CallSetEnabled true]
                  IRemoteVideoTrackEx.MANUAL create)).
  reflexivity.
Defined.

(** ** Detach reasons *)

Lemma detach_reasons_complete (v : TrackVariant) (r : DetachReasonOf v) :
  r ∈ detach_reasons v.
Proof. apply list_elem_of_In. destruct v, r; simpl; tauto. Qed.

(** The reason of a [detach] shows only in the notification it queues. *)
Lemma detach_reason_irrelevant {Info Reason : Type}
    (r1 r2 : Reason) (t : Track Info Reason) :
  (detach r1 t).1 = (detach r2 t).1
  ∧ state (detach r1 t).2 = state (detach r2 t).2
  ∧ binding (detach r1 t).2 = binding (detach r2 t).2
  ∧ length (pending (detach r1 t).2) = length (pending (detach r2 t).2).
Proof.
  unfold detach. destruct (state t); simpl; rewrite ?length_app; done.
Qed.

(** C3, as stated, fails: the local audio track's [detach] accepts
    [MIXER_DESTROY], which is not in the specification's set (and the set's
    [NETWORK_DESTROY] and [CODEC_CHANGE] are not local audio reasons). *)
Lemma local_audio_reasons_differ : ¬ all_reasons_from_spec_set.
Proof.
  intros Hall. specialize (Hall LocalAudio "MIXER_DESTROY").
  assert (Hin : "MIXER_DESTROY" ∈ detach_reason_names LocalAudio)
    by (apply list_elem_of_In; simpl; tauto).
  apply Hall, list_elem_of_In in Hin. simpl in Hin.
  by destruct Hin as [?|[?|[?|[?|[]]]]].
Qed.

(** C3, amended: the local video track's [detach] takes its reason from
    exactly {MANUAL, TRACK_DESTROY, NETWORK_DESTROY, CODEC_CHANGE}, the local
    audio track's from {MANUAL, TRACK_DESTROY, MIXER_DESTROY} and the remote
    video track's from {MANUAL, TRACK_DESTROY, NETWORK_DESTROY}; every reason
    of a variant is one of its listed enumerators; and for every variant the
    reason does not alter the outcome, the state reached or the binding of a
    [detach]. *)
Theorem detach_reasons_per_variant :
  reasons_exactly LocalVideo spec_detach_reasons
  ∧ detach_reason_names LocalAudio = ["MANUAL"; "TRACK_DESTROY"; "MIXER_DESTROY"]
  ∧ detach_reason_names RemoteVideo = ["MANUAL"; "TRACK_DESTROY"; "NETWORK_DESTROY"]
  ∧ (∀ (v : TrackVariant) (r : DetachReasonOf v), r ∈ detach_reasons v)
  ∧ (∀ (Info : Type) (v : TrackVariant) (r1 r2 : DetachReasonOf v)
       (t : Track Info (DetachReasonOf v)),
       (detach r1 t).1 = (detach r2 t).1
       ∧ state (detach r1 t).2 = state (detach r2 t).2
       ∧ binding (detach r1 t).2 = binding (detach r2 t).2).
Proof.
  split_and!.
  - intros s. reflexivity.
  - reflexivity.
  - reflexivity.
  - apply detach_reasons_complete.
  - intros Info v r1 r2 t.
    destruct (detach_reason_irrelevant r1 r2 t) as (H1 & H2 & H3 & _). done.
Qed.

(** ** Return types *)

(** C4, as stated, fails: [ILocalVideoTrackEx::attach] is declared [bool]. *)
Lemma video_attach_returns_bool : ¬ all_return_status_codes.
Proof.
  intros Hall. specialize (Hall LocalVideo op_attach).
  unfold returns_status_code in Hall. simpl in Hall.
  assert (Some TBool = Some TInt) as Heq by (apply Hall; by eexists).
  discriminate.
Qed.

(** C4, amended: of the attach, detach, enable and observer-registration
    operations, those that return an integer status code are
    [setEnabledLLApiInternal] (local audio, local video),
    [registerTrackObserverLLApiInternal] and
    [unregisterTrackObserverLLApiInternal] (local audio) and the
    encoded-frame observer registrations (local and remote video); [attach]
    and [detach] return [bool] on the video tracks and nothing on the local
    audio track; [registerTrackObserver] and [unregisterTrackObserver]
    return [bool], and their base-class bodies, on the local and on the
    remote video track, return [false] and change nothing.  Whatever the
    outcome of an operation, the caller of one that returns an integer
    receives 0 exactly on success and a negative code on every error, the
    caller of one that returns [bool] receives [true] exactly on success,
    and the caller of a [void] one receives nothing; so
    [setEnabledLLApiInternal] answers 0 exactly on an attached track and a
    negative code, leaving the track as it is, on any other. *)
Theorem lifecycle_return_types :
  (∀ (v : TrackVariant) (op : Operation),
     returns_status_code v op ↔
       (op ∈ [op_setEnabledLLApiInternal] ∧ v ∈ [LocalAudio; LocalVideo])
       ∨ (op ∈ [op_registerTrackObserverLLApiInternal;
                op_unregisterTrackObserverLLApiInternal] ∧ v = LocalAudio)
       ∨ (op ∈ [op_registerVideoEncodedFrameObserverLLApiInternal;
                op_unregisterVideoEncodedFrameObserverLLApiInternal]
          ∧ v ∈ [LocalVideo; RemoteVideo]))
  ∧ (∀ op : Operation, op ∈ [op_attach; op_detach] →
       return_type LocalAudio op = Some TVoid
       ∧ return_type LocalVideo op = Some TBool
       ∧ return_type RemoteVideo op = Some TBool)
  ∧ (∀ op : Operation, op ∈ [op_registerTrackObserver; op_unregisterTrackObserver] →
       return_type LocalAudio op = None
       ∧ return_type LocalVideo op = Some TBool
       ∧ return_type RemoteVideo op = Some TBool)
  ∧ (∀ (Observer : Type) (o : Observer) (this : ILocalVideoTrackEx.t),
       ILocalVideoTrackEx.registerTrackObserver Observer o this = (false, this)
       ∧ ILocalVideoTrackEx.unregisterTrackObserver Observer o this = (false, this))
  ∧ (∀ (errno : Error → positive) (r : Result),
       (status_code errno r = 0 ↔ r = Ok)
       ∧ (r ≠ Ok → status_code errno r < 0)
       ∧ (succeeded r = true ↔ r = Ok))
  ∧ (∀ (Observer This : Type) (o : Observer) (this : This),
       IRemoteVideoTrackEx.registerTrackObserver Observer This o this = (false, this)
       ∧ IRemoteVideoTrackEx.unregisterTrackObserver Observer This o this = (false, this))
  ∧ (∀ (errno : Error → positive) (v : TrackVariant) (op : Operation) (r : Result),
       returns_status_code v op →
       ∃ z : Z, call_returns errno v op r = Some (VInt z)
                ∧ (z = 0 ↔ r = Ok) ∧ (r ≠ Ok → z < 0))
  ∧ (∀ (errno : Error → positive) (v : TrackVariant) (op : Operation) (r : Result),
       return_type v op = Some TBool →
       ∃ b : bool, call_returns errno v op r = Some (VBool b) ∧ (b = true ↔ r = Ok))
  ∧ (∀ (errno : Error → positive) (v : TrackVariant) (op : Operation) (r : Result),
       return_type v op = Some TVoid → call_returns errno v op r = Some VVoid)
  ∧ (∀ (Info Reason : Type) (errno : Error → positive) (enable : bool)
       (t : Track Info Reason),
       ((setEnabledLLApiInternal errno enable t).1 = 0
        ↔ is_attached (state t) = true)
       ∧ (is_attached (state t) = false →
            (setEnabledLLApiInternal errno enable t).1 < 0
            ∧ (setEnabledLLApiInternal errno enable t).2 = t)).
Proof.
  assert (Hcode : ∀ (errno : Error → positive) (r : Result),
            (status_code errno r = 0 ↔ r = Ok)
            ∧ (r ≠ Ok → status_code errno r < 0)
            ∧ (succeeded r = true ↔ r = Ok)).
  { intros errno r. destruct r as [|e]; simpl.
    - split_and!; done.
    - split_and!; [split; [lia|done] | lia | done]. }
  split_and!.
  - intros v op. unfold returns_status_code.
    rewrite !list_elem_of_In.
    destruct v, op; simpl; split; intros H;
      try reflexivity; try discriminate; intuition discriminate.
  - intros op Hop. rewrite !elem_of_cons, elem_of_nil in Hop.
    destruct Hop as [->|[->|[]]]; done.
  - intros op Hop. rewrite !elem_of_cons, elem_of_nil in Hop.
    destruct Hop as [->|[->|[]]]; done.
  - done.
  - exact Hcode.
  - done.
  - intros errno v op r Hint. unfold returns_status_code in Hint.
    exists (status_code errno r). unfold call_returns. rewrite Hint. simpl.
    destruct (Hcode errno r) as (H0 & Hneg & _). done.
  - intros errno v op r Hbool. exists (succeeded r).
    unfold call_returns. rewrite Hbool. simpl.
    destruct (Hcode errno r) as (_ & _ & Hb). done.
  - intros errno v op r Hvoid. unfold call_returns. by rewrite Hvoid.
  - intros Info Reason errno enable t.
    unfold setEnabledLLApiInternal, setEnabled.
    destruct (state t); simpl; split; try done; try (split; intros; lia || done).
Qed.

(** ** The filter chain *)

Import FilterChain.

Section FilterChainFacts.
Context {Position Filter : Type}.
Context `{!EqDecision Position, !EqDecision Filter}.
Implicit Types (c : Chain Position Filter) (l : list (Entry Filter)).
Implicit Types (p q : Position) (f : Filter) (i : string).

Lemma set_position_eq p l c : set_position p l c p = l.
Proof. unfold set_position. by rewrite decide_True. Qed.

Lemma set_position_ne p q l c : q ≠ p → set_position p l c q = c q.
Proof. intros Hne. unfold set_position. by rewrite decide_False. Qed.

Lemma set_position_same p c q : set_position p (c p) c q = c q.
Proof. unfold set_position. by destruct (decide (q = p)) as [->|]. Qed.

Lemma set_position_twice p l1 l2 c q :
  set_position p l2 (set_position p l1 c) q = set_position p l2 c q.
Proof. unfold set_position. by destruct (decide (q = p)). Qed.

Lemma has_id_true i l : has_id i l = true ↔ i ∈ entry_id <$> l.
Proof. unfold has_id. apply bool_decide_eq_true. Qed.

Lemma has_id_false i l : has_id i l = false ↔ i ∉ entry_id <$> l.
Proof. unfold has_id. apply bool_decide_eq_false. Qed.

Lemma has_filter_true f l : has_filter f l = true ↔ f ∈ entry_filter <$> l.
Proof. unfold has_filter. apply bool_decide_eq_true. Qed.

Lemma has_filter_false f l : has_filter f l = false ↔ f ∉ entry_filter <$> l.
Proof. unfold has_filter. apply bool_decide_eq_false. Qed.

(** Removing an instance that is not in the list removes nothing. *)
Lemma remove_absent f l :
  f ∉ entry_filter <$> l → filter (λ x, entry_filter x ≠ f) l = l.
Proof.
  induction l as [|x l IH]; [done|]. rewrite fmap_cons, not_elem_of_cons.
  intros [Hx Hl]. rewrite filter_cons_True by done. by rewrite IH.
Qed.

(** Removing the instance that was just appended gives the old list. *)
Lemma remove_appended f i l :
  f ∉ entry_filter <$> l →
  filter (λ x, entry_filter x ≠ f) (l ++ [mkEntry f i true]) = l.
Proof.
  intros Hf. rewrite filter_app, remove_absent by done.
  rewrite filter_cons_False, filter_nil by (simpl; tauto).
  by rewrite app_nil_r.
Qed.

Lemma replace_entry_ids (e : Entry Filter) l :
  entry_id <$> replace_entry e l = entry_id <$> l.
Proof.
  unfold replace_entry. rewrite <- list_fmap_compose.
  apply list_fmap_ext. intros k x _. simpl. by case_decide.
Qed.

Lemma enable_ids i (enable : bool) l :
  entry_id <$>
    ((λ x, if decide (entry_id x = i)
           then mkEntry (entry_filter x) (entry_id x) enable else x) <$> l)
  = entry_id <$> l.
Proof.
  rewrite <- list_fmap_compose.
  apply list_fmap_ext. intros k x _. simpl. by case_decide.
Qed.

Lemma filter_ids_NoDup (P : Entry Filter → Prop) `{!∀ x, Decision (P x)} l :
  NoDup (entry_id <$> l) → NoDup (entry_id <$> filter P l).
Proof.
  induction l as [|x l IH]; [done|]. rewrite fmap_cons, NoDup_cons.
  intros [Hx Hl]. destruct (decide (P x)).
  - rewrite filter_cons_True, fmap_cons, NoDup_cons by done. split; [|by apply IH].
    intros (y & Hy & [_ Hin]%list_elem_of_filter)%list_elem_of_fmap.
    apply Hx, list_elem_of_fmap. by exists y.
  - rewrite filter_cons_False by done. by apply IH.
Qed.

Lemma filter_none (P : Entry Filter → Prop) `{!∀ x, Decision (P x)} l :
  (∀ y, y ∈ l → ¬ P y) → filter P l = [].
Proof.
  induction l as [|x l IH]; intros Hl; [done|].
  rewrite filter_cons_False by (apply Hl; left).
  apply IH. intros y Hy. apply Hl. by right.
Qed.

(** With unique ids, an id selects at most one entry. *)
Lemma NoDup_ids_count i l :
  NoDup (entry_id <$> l) → (length (filter (λ x, entry_id x = i) l) ≤ 1)%nat.
Proof.
  induction l as [|x l IH]; [simpl; lia|]. rewrite fmap_cons, NoDup_cons.
  intros [Hx Hl]. destruct (decide (entry_id x = i)) as [Heq|Hne].
  - rewrite filter_cons_True by done. simpl.
    assert (filter (λ y, entry_id y = i) l = []) as ->; [|simpl; lia].
    apply filter_none. intros y Hy Hyi.
    apply Hx, list_elem_of_fmap. exists y. split; [congruence|done].
  - rewrite filter_cons_False by done. by apply IH.
Qed.

Lemma addFilter_unique policy f p i c :
  unique_ids c → unique_ids (addFilter policy f p i c).2.
Proof.
  intros Hc q. unfold addFilter.
  destruct (has_id i (c p)) eqn:Hid; [destruct policy|]; simpl; [apply Hc|..];
    unfold set_position; destruct (decide (q = p)) as [->|]; try apply Hc.
  - rewrite replace_entry_ids. apply Hc.
  - rewrite fmap_app. apply NoDup_app. split_and!; [apply Hc| |apply NoDup_singleton].
    intros j Hj ->%list_elem_of_singleton. by apply has_id_false in Hid.
Qed.

Lemma removeFilter_unique f p c :
  unique_ids c → unique_ids (removeFilter f p c).2.
Proof.
  intros Hc q. unfold removeFilter.
  destruct (has_filter f (c p)); simpl; [|apply Hc].
  unfold set_position; destruct (decide (q = p)) as [->|]; [|apply Hc].
  apply filter_ids_NoDup, Hc.
Qed.

Lemma enableFilter_unique i p (enable : bool) c :
  unique_ids c → unique_ids (enableFilter i p enable c).2.
Proof.
  intros Hc q. unfold enableFilter.
  destruct (has_id i (c p)); simpl; [|apply Hc].
  unfold set_position; destruct (decide (q = p)) as [->|]; [|apply Hc].
  rewrite enable_ids. apply Hc.
Qed.

Lemma call_unique (k : Call Position Filter) c :
  unique_ids c → unique_ids (call k c).2.
Proof.
  destruct k; simpl;
    [apply addFilter_unique | apply removeFilter_unique | apply enableFilter_unique].
Qed.

Lemma run_unique (history : list (Call Position Filter)) c :
  unique_ids c → unique_ids (run c history).
Proof.
  revert c. induction history as [|k history IH]; intros c Hc; [done|].
  unfold run. simpl. apply IH. by apply call_unique.
Qed.

Lemma empty_unique : unique_ids (empty : Chain Position Filter).
Proof. intros p. apply NoDup_nil_2. Qed.

End FilterChainFacts.

(** On the modelled chain the round trip does not hold in every state: on a
    chain that already holds the filter under the same id at the position,
    [addFilter] is rejected with [DuplicateId] and the following
    [removeFilter] removes the entry that was there before. *)
Lemma roundtrip_fails_when_installed :
  ¬ add_remove_roundtrip Reject 1%nat POSITION_POST_CAPTURER "A" chain_with_A.
Proof. unfold add_remove_roundtrip. vm_compute. discriminate. Qed.

(** On the modelled chain the round trip holds in every state in which the
    filter instance is not yet installed at the position (and, under
    replace semantics, its id is not in use there): [addFilter] followed at
    once by [removeFilter] of the same filter at that position leaves the
    filter list of that position, and of every other position, as it was
    before the add. *)
Lemma add_then_remove_restores
    {Position Filter : Type} `{!EqDecision Position, !EqDecision Filter}
    (policy : DuplicatePolicy) (f : Filter) (p : Position) (i : string)
    (c : Chain Position Filter) :
  f ∉ entry_filter <$> filters_at p c →
  (policy = Replace → i ∉ entry_id <$> filters_at p c) →
  add_remove_roundtrip policy f p i c
  ∧ ∀ q : Position,
      filters_at q (removeFilter f p (addFilter policy f p i c).2).2 = filters_at q c.
Proof.
  unfold add_remove_roundtrip, filters_at. intros Hf Hi.
  cut (∀ q, (removeFilter f p (addFilter policy f p i c).2).2 q = c q);
    [by auto|].
  intros q. unfold addFilter.
  destruct (has_id i (c p)) eqn:Hid.
  - apply has_id_true in Hid. destruct policy; [|by destruct Hi].
    simpl. unfold removeFilter.
    by rewrite (proj2 (has_filter_false f (c p)) Hf).
  - simpl. unfold removeFilter. rewrite set_position_eq.
    assert (has_filter f (c p ++ [mkEntry f i true]) = true) as ->.
    { apply has_filter_true. rewrite fmap_app. apply elem_of_app. right. by left. }
    simpl. rewrite set_position_twice, remove_appended by done.
    apply set_position_same.
Qed.

(** Filter [2] under the id [B] is added to and removed from a chain that
    holds filter [1] under [A]. *)
Lemma add_then_remove_restores_witness :
  add_remove_roundtrip Reject 2%nat POSITION_POST_CAPTURER "B" chain_with_A.
Proof.
  apply (add_then_remove_restores Reject 2%nat POSITION_POST_CAPTURER "B" chain_with_A).
  - vm_compute. intros H. apply list_elem_of_In in H. simpl in H.
    destruct H as [H|[]]. discriminate.
  - discriminate.
Defined.

(** C6: in every chain reached from the empty chain by any history of add,
    remove and enable calls (under either duplicate policy), every position
    holds at most one filter per id; adding an id that is already present at
    the position is rejected with [DuplicateId] and changes nothing, or,
    under explicit replace semantics, succeeds and still leaves exactly the
    ids that were there, so that no add ever yields two entries for one
    (id, position). *)
Theorem one_filter_per_id_and_position
    {Position Filter : Type} `{!EqDecision Position, !EqDecision Filter} :
  (∀ (history : list (Call Position Filter)) (p : Position) (i : string),
     (count_id i p (run empty history) ≤ 1)%nat)
  ∧ (∀ (history : list (Call Position Filter)), unique_ids (run empty history))
  ∧ (∀ (c : Chain Position Filter) (f : Filter) (p : Position) (i : string),
       hasFilter i p c = true → addFilter Reject f p i c = (Err DuplicateId, c))
  ∧ (∀ (c : Chain Position Filter) (f : Filter) (p : Position) (i : string),
       hasFilter i p c = true →
       (addFilter Replace f p i c).1 = Ok
       ∧ entry_id <$> filters_at p (addFilter Replace f p i c).2
         = entry_id <$> filters_at p c)
  ∧ (∀ (c : Chain Position Filter) (policy : DuplicatePolicy)
       (f : Filter) (p q : Position) (i j : string),
       unique_ids c → (count_id j q (addFilter policy f p i c).2 ≤ 1)%nat).
Proof.
  split_and!.
  - intros history p i. unfold count_id.
    apply NoDup_ids_count, run_unique, empty_unique.
  - intros history. apply run_unique, empty_unique.
  - intros c f p i Hhas. unfold hasFilter in Hhas. unfold addFilter.
    by rewrite Hhas.
  - intros c f p i Hhas. unfold hasFilter in Hhas. unfold addFilter, filters_at.
    rewrite Hhas. simpl. split; [done|].
    by rewrite set_position_eq, replace_entry_ids.
  - intros c policy f p q i j Hc. unfold count_id.
    by apply NoDup_ids_count, addFilter_unique.
Qed.

(** The same id is added twice at one position of a chain. *)
Lemma one_filter_per_id_and_position_witness :
  hasFilter "A" POSITION_POST_CAPTURER chain_with_A = true
  ∧ addFilter Reject 5%nat POSITION_POST_CAPTURER "A" chain_with_A
    = (Err DuplicateId, chain_with_A).
Proof.
  split; [reflexivity|].
  apply (proj1 (proj2 (proj2 (@one_filter_per_id_and_position
                                VIDEO_MODULE_POSITION nat _ _)))).
  reflexivity.
Defined.

(** ** Observer registration *)



(** ** Track ids *)

Lemma wrap_int_range (z : Z) : in_int (wrap_int z).
Proof.
  unfold in_int, wrap_int, INT_MIN, INT_MAX.
  pose proof (Z.mod_pos_bound (z + 2 ^ 31) (2 ^ 32) ltac:(lia)). lia.
Qed.

Lemma wrap_int_small (z : Z) : in_int z → wrap_int z = z.
Proof.
  unfold in_int, wrap_int, INT_MIN, INT_MAX. intros Hz.
  rewrite Z.mod_small; lia.
Qed.

Lemma wrap_int_add (z k : Z) : wrap_int (wrap_int z + k) = wrap_int (z + k).
Proof.
  unfold wrap_int. f_equal.
  replace ((z + 2 ^ 31) `mod` 2 ^ 32 - 2 ^ 31 + k + 2 ^ 31)
    with ((z + 2 ^ 31) `mod` 2 ^ 32 + k) by lia.
  rewrite Zplus_mod_idemp_l. f_equal. lia.
Qed.

(** Two of fewer than 2^32 consecutive counter values never coincide. *)
Lemma wrap_int_inj (g i j : Z) :
  0 ≤ i < 2 ^ 32 → 0 ≤ j < 2 ^ 32 →
  wrap_int (g + i) = wrap_int (g + j) → i = j.
Proof.
  unfold wrap_int. intros Hi Hj Heq.
  assert ((g + i + 2 ^ 31) `mod` 2 ^ 32 = (g + j + 2 ^ 31) `mod` 2 ^ 32) as Hmod by lia.
  change (2 ^ 32) with 4294967296 in *. change (2 ^ 31) with 2147483648 in *.
  revert Hmod. Z.div_mod_to_equations. lia.
Qed.

(** The generator and the ids after any history: the [i]-th track holds the
    start value advanced [i] times. *)
Lemma process_run_ids (g : Z) (steps : list ProcessStep) :
  in_int g →
  id_generator_ (process_run (process_start g) steps)
    = wrap_int (g + Z.of_nat (length (tracks (process_run (process_start g) steps))))
  ∧ ∀ (i : nat) (trk : ILocalVideoTrackEx.t),
      tracks (process_run (process_start g) steps) !! i = Some trk →
      ILocalVideoTrackEx.TrackId trk = wrap_int (g + Z.of_nat i).
Proof.
  intros Hg. unfold process_run.
  induction steps as [|s steps IH] using rev_ind.
  - simpl. split; [|done]. rewrite Z.add_0_r. by rewrite wrap_int_small.
  - rewrite foldl_snoc. destruct IH as [IHgen IHids].
    set (p := foldl process_step (process_start g) steps) in *.
    destruct s as [garbage|k uid]; simpl.
    + split.
      * rewrite length_app, IHgen, wrap_int_add. simpl. f_equal. lia.
      * intros i trk Hlook. apply lookup_app_Some in Hlook as [Hold|[Hlen Hnew]].
        { by apply IHids. }
        apply list_lookup_singleton_Some in Hnew as [Hi <-]. simpl.
        rewrite IHgen. f_equal. lia.
    + split.
      * by rewrite length_alter.
      * intros i trk Hlook. destruct (decide (i = k)) as [->|Hne].
        { rewrite list_lookup_alter_eq in Hlook.
          destruct (tracks p !! k) as [old|] eqn:Hold; [|done].
          simpl in Hlook. injection Hlook as <-. simpl.
          by apply (IHids k old). }
        rewrite list_lookup_alter_ne in Hlook by done. by apply IHids.
Qed.

Lemma track_ids_lookup (g : Z) (steps : list ProcessStep) (i : nat) (a : Z) :
  in_int g →
  track_ids (process_run (process_start g) steps) !! i = Some a →
  a = wrap_int (g + Z.of_nat i)
  ∧ (i < length (track_ids (process_run (process_start g) steps)))%nat.
Proof.
  intros Hg Hlook. split; [|by eapply lookup_lt_Some].
  unfold track_ids in Hlook. rewrite list_lookup_fmap in Hlook.
  destruct (tracks (process_run (process_start g) steps) !! i) as [trk|] eqn:Htrk;
    [|done].
  simpl in Hlook. injection Hlook as <-.
  by apply (proj2 (process_run_ids g steps Hg)).
Qed.

(** A step leaves the id of every track that exists unchanged. *)
Lemma process_step_keeps_id (p : Process) (s : ProcessStep)
    (i : nat) (trk : ILocalVideoTrackEx.t) :
  tracks p !! i = Some trk →
  ILocalVideoTrackEx.TrackId <$> (tracks (process_step p s) !! i)
    = Some (ILocalVideoTrackEx.TrackId trk).
Proof.
  intros Hlook. destruct s as [garbage|k uid]; simpl.
  - by rewrite lookup_app_l, Hlook by (by eapply lookup_lt_Some).
  - destruct (decide (i = k)) as [->|Hne].
    + by rewrite list_lookup_alter_eq, Hlook.
    + by rewrite list_lookup_alter_ne, Hlook.
Qed.

Lemma process_run_keeps_id (steps : list ProcessStep) (p : Process)
    (i : nat) (trk : ILocalVideoTrackEx.t) :
  tracks p !! i = Some trk →
  ILocalVideoTrackEx.TrackId <$> (tracks (process_run p steps) !! i)
    = Some (ILocalVideoTrackEx.TrackId trk).
Proof.
  revert p trk. induction steps as [|s steps IH]; intros p trk Hlook.
  - simpl. by rewrite Hlook.
  - unfold process_run. simpl.
    pose proof (process_step_keeps_id p s i trk Hlook) as Hstep.
    destruct (tracks (process_step p s) !! i) as [trk'|] eqn:Hnext; [|done].
    simpl in Hstep. injection Hstep as <-. by apply IH.
Qed.

(** C9, as stated, fails: with the generator at [INT_MAX], the next track
    gets 2147483647 and the one constructed after it gets -2147483648. *)
Lemma ids_wrap_at_INT_MAX : ¬ ids_always_unique_and_increasing.
Proof.
  intros Hall.
  destruct (Hall INT_MAX [Construct 0; Construct 0]) as [_ Hinc].
  { unfold in_int, INT_MIN, INT_MAX. lia. }
  specialize (Hinc 0%nat 1%nat 2147483647 (-2147483648)).
  assert (2147483647 < -2147483648) as Habs; [|lia].
  apply Hinc; [lia|reflexivity|reflexivity].
Qed.

(** C9, amended: every local video track receives the value the
    process-wide 32-bit generator holds at its construction, and the
    generator then advances by one with wrap-around.  Among the tracks of a
    process the ids are pairwise distinct as long as no more than 2^32
    tracks have been constructed, and strictly increasing in construction
    order as long as the generator has not passed [INT_MAX]; and whatever
    the process does afterwards, a track's id stays what it was. *)
Theorem local_video_track_ids (g : Z) (steps : list ProcessStep) :
  in_int g →
  (Z.of_nat (length (track_ids (process_run (process_start g) steps))) ≤ 2 ^ 32 →
     NoDup (track_ids (process_run (process_start g) steps)))
  ∧ (g + Z.of_nat (length (track_ids (process_run (process_start g) steps))) ≤ 2 ^ 31 →
       ids_increasing (track_ids (process_run (process_start g) steps)))
  ∧ (∀ (later : list ProcessStep) (i : nat) (trk : ILocalVideoTrackEx.t),
       tracks (process_run (process_start g) steps) !! i = Some trk →
       ILocalVideoTrackEx.TrackId
         <$> (tracks (process_run (process_run (process_start g) steps) later) !! i)
       = Some (ILocalVideoTrackEx.TrackId trk)).
Proof.
  intros Hg. split_and!.
  - intros Hlen. apply NoDup_alt. intros i j a Hi Hj.
    apply (track_ids_lookup g steps i a Hg) in Hi as [Hia Hil].
    apply (track_ids_lookup g steps j a Hg) in Hj as [Hja Hjl].
    apply Nat2Z.inj.
    apply (wrap_int_inj g); [lia|lia|congruence].
  - intros Hlen i j a b Hij Hi Hj.
    apply (track_ids_lookup g steps i a Hg) in Hi as [-> Hil].
    apply (track_ids_lookup g steps j b Hg) in Hj as [-> Hjl].
    unfold in_int, INT_MIN, INT_MAX in Hg.
    rewrite !wrap_int_small by (unfold in_int, INT_MIN, INT_MAX; lia).
    lia.
  - intros later i trk Hlook. by apply process_run_keeps_id.
Qed.

(** Three tracks are constructed from the generator value 5, the second has
    its user id set, and the ids are 5, 6 and 7. *)
Lemma local_video_track_ids_witness :
  in_int 5
  ∧ track_ids (process_run (process_start 5)
                 [Construct 0; Construct 0; SetUserId 1 42; Construct 0])
    = [5; 6; 7]
  ∧ NoDup (track_ids (process_run (process_start 5)
                        [Construct 0; Construct 0; SetUserId 1 42; Construct 0])).
Proof.
  assert (H5 : in_int 5) by (unfold in_int, INT_MIN, INT_MAX; lia).
  split; [exact H5|]. split; [reflexivity|].
  apply (proj1 (local_video_track_ids 5
                  [Construct 0; Construct 0; SetUserId 1 42; Construct 0] H5)).
  simpl. lia.
Defined.

(** ** Worked scenarios *)

(** An idle local video track is attached, disabled and detached; the three
    transitions are queued for the observers, the reason on the last. *)
Example attach_disable_detach_scenario :
  let t : Track nat ILocalVideoTrackEx.DetachReason :=
    TrackStateMachine.run create
      [CallAttach 1%nat; CallSetEnabled false;
       CallDetach ILocalVideoTrackEx.CODEC_CHANGE] in
  state t = Idle
  ∧ binding t = None
  ∧ pending t =
      [mkNotification Idle (Attached Enabled) None;
       mkNotification (Attached Enabled) (Attached Disabled) None;
       mkNotification (Attached Disabled) Idle (Some ILocalVideoTrackEx.CODEC_CHANGE)].
Proof. by compute. Qed.

(** A second [attach] on an attached track is refused. *)
Example attach_twice_scenario :
  (TrackStateMachine.call (CallAttach 2%nat)
     (TrackStateMachine.run (create : Track nat IRemoteVideoTrackEx.DetachReason)
        [CallAttach 1%nat])).1
  = Err InvalidState.
Proof. reflexivity. Qed.

(** Filters [A] and [B] are added at one position, in that order, and [A]
    is bypassed: both stay installed, in insertion order. *)
Example add_two_filters_scenario :
  filters_at POSITION_POST_CAPTURER
    (FilterChain.run (empty : Chain VIDEO_MODULE_POSITION nat)
       [CallAdd Reject 1%nat POSITION_POST_CAPTURER "A";
        CallAdd Reject 2%nat POSITION_POST_CAPTURER "B";
        CallEnable "A" POSITION_POST_CAPTURER false])
  = [mkEntry 1%nat "A" false; mkEntry 2%nat "B" true].
Proof. by vm_compute. Qed.

(** The rejected add and the following remove on [chain_with_A], step by
    step. *)
Example duplicate_add_then_remove_scenario :
  addFilter Reject 1%nat POSITION_POST_CAPTURER "A" chain_with_A
    = (Err DuplicateId, chain_with_A)
  ∧ filters_at POSITION_POST_CAPTURER chain_with_A = [mkEntry 1%nat "A" true]
  ∧ filters_at POSITION_POST_CAPTURER
      (removeFilter 1%nat POSITION_POST_CAPTURER chain_with_A).2 = [].
Proof. split_and!; by vm_compute. Qed.

(** The ids handed out around [INT_MAX]. *)
Example ids_around_INT_MAX :
  track_ids (process_run (process_start (INT_MAX - 1))
               [Construct 0; Construct 0; Construct 0])
  = [2147483646; 2147483647; -2147483648].
Proof. reflexivity. Qed.

(** The enumerator values of the three [DetachReason]s. *)
Example detach_reason_values :
  ILocalAudioTrackEx.DetachReason_value <$> ILocalAudioTrackEx.DetachReason_all = [0; 1; 2]
  ∧ ILocalVideoTrackEx.DetachReason_value <$> ILocalVideoTrackEx.DetachReason_all
    = [0; 1; 2; 3]
  ∧ IRemoteVideoTrackEx.DetachReason_value <$> IRemoteVideoTrackEx.DetachReason_all
    = [0; 1; 2].
Proof. by split_and!. Qed.

(** * Further properties of the headers *)

(** ** Audio frame source names *)

Lemma known_bits_range (type : Z) : 0 ≤ AudioFrameHandleInfo.known_bits type < 32.
Proof.
  unfold AudioFrameHandleInfo.known_bits. change 31 with (Z.ones 5).
  rewrite Z.land_ones by lia. apply Z.mod_pos_bound. lia.
Qed.

Lemma known_bits_idemp (type : Z) :
  AudioFrameHandleInfo.known_bits (AudioFrameHandleInfo.known_bits type)
  = AudioFrameHandleInfo.known_bits type.
Proof.
  unfold AudioFrameHandleInfo.known_bits.
  rewrite <- Z.land_assoc. reflexivity.
Qed.

(** One turn of the loop looks at one of the five low bits only. *)
Lemma append_source_known_bits (type : Z) (name : string) (i : Z) :
  i ∈ seqZ 0 5 →
  AudioFrameHandleInfo.append_source (AudioFrameHandleInfo.known_bits type) name i
  = AudioFrameHandleInfo.append_source type name i.
Proof.
  intros Hi. unfold AudioFrameHandleInfo.append_source, AudioFrameHandleInfo.known_bits.
  rewrite <- Z.land_assoc.
  replace (Z.land 31 (Z.shiftl 1 i)) with (Z.shiftl 1 i); [done|].
  apply list_elem_of_In in Hi. simpl in Hi.
  destruct Hi as [<-|[<-|[<-|[<-|[<-|[]]]]]]; reflexivity.
Qed.

Lemma source_name_known_bits (type : Z) :
  AudioFrameHandleInfo.getAudioFrameSourceName (AudioFrameHandleInfo.known_bits type)
  = AudioFrameHandleInfo.getAudioFrameSourceName type.
Proof.
  unfold AudioFrameHandleInfo.getAudioFrameSourceName.
  change (seqZ 0 (AUDIO_FRAME_SOURCE_TYPE.to_int AUDIO_FRAME_SOURCE_TYPE.KNOWN_TYPE_COUNT))
    with [0; 1; 2; 3; 4].
  assert (Hin : ∀ i, i ∈ [0; 1; 2; 3; 4] → i ∈ seqZ 0 5) by done.
  simpl foldl.
  rewrite !append_source_known_bits by (apply Hin, list_elem_of_In; simpl; tauto).
  reflexivity.
Qed.

(** A decidable property that holds for 0, ..., 31 holds for every
    combination of known bits. *)
Lemma for_all_known_bits (P : Z → Prop) `{!∀ r, Decision (P r)} :
  bool_decide (Forall P (seqZ 0 32)) = true →
  ∀ r : Z, 0 ≤ r < 32 → P r.
Proof.
  intros Hall%bool_decide_eq_true r Hr.
  rewrite Forall_forall in Hall. apply Hall, elem_of_seqZ. lia.
Qed.

(** X1: the name is "unknown" exactly when none of the five source bits of
    [type] is set (so also for types that only carry higher bits), and it
    is never the empty string. *)
Theorem source_name_unknown_iff (type : Z) :
  (AudioFrameHandleInfo.getAudioFrameSourceName type = "unknown"
   ↔ AudioFrameHandleInfo.known_bits type = 0)
  ∧ AudioFrameHandleInfo.getAudioFrameSourceName type ≠ "".
Proof.
  rewrite <- source_name_known_bits.
  pose proof (known_bits_range type) as Hr.
  revert Hr. generalize (AudioFrameHandleInfo.known_bits type). intros r Hr.
  split.
  - revert r Hr.
    apply (for_all_known_bits
             (λ r, AudioFrameHandleInfo.getAudioFrameSourceName r = "unknown" ↔ r = 0)).
    by vm_compute.
  - revert r Hr.
    apply (for_all_known_bits
             (λ r, AudioFrameHandleInfo.getAudioFrameSourceName r ≠ "")).
    by vm_compute.
Qed.

(** X2: two types get the same name exactly when they agree on the five
    source bits: the name depends on nothing else, and it determines those
    bits. *)
Theorem source_name_determines_known_bits (t1 t2 : Z) :
  AudioFrameHandleInfo.getAudioFrameSourceName t1
    = AudioFrameHandleInfo.getAudioFrameSourceName t2
  ↔ AudioFrameHandleInfo.known_bits t1 = AudioFrameHandleInfo.known_bits t2.
Proof.
  split.
  - rewrite <- (source_name_known_bits t1), <- (source_name_known_bits t2).
    pose proof (known_bits_range t1) as H1. pose proof (known_bits_range t2) as H2.
    revert H1 H2.
    generalize (AudioFrameHandleInfo.known_bits t1) (AudioFrameHandleInfo.known_bits t2).
    intros r1 r2 H1 H2.
    assert (Forall (λ r, AudioFrameHandleInfo.getAudioFrameSourceName r1
                         = AudioFrameHandleInfo.getAudioFrameSourceName r → r1 = r)
                   (seqZ 0 32)) as Hall.
    { revert r1 H1.
      apply (for_all_known_bits
               (λ r1, Forall (λ r, AudioFrameHandleInfo.getAudioFrameSourceName r1
                                   = AudioFrameHandleInfo.getAudioFrameSourceName r → r1 = r)
                             (seqZ 0 32))).
      by vm_compute. }
    rewrite Forall_forall in Hall. apply Hall, elem_of_seqZ. lia.
  - intros Heq.
    rewrite <- (source_name_known_bits t1), <- (source_name_known_bits t2).
    by rewrite Heq.
Qed.

(** X3: the function extends its own table: for every key of
    [source_name] (the value of [UNKNOWN] and of each single source) it
    returns the name the table holds for that key. *)
Theorem source_name_extends_table (k : Z) (s : string) :
  AudioFrameHandleInfo.source_name !! k = Some s →
  AudioFrameHandleInfo.getAudioFrameSourceName k = s.
Proof.
  unfold AudioFrameHandleInfo.source_name. intros Hk.
  apply elem_of_list_to_map_2, list_elem_of_In in Hk. simpl in Hk.
  destruct Hk as [Hk|[Hk|[Hk|[Hk|[Hk|[Hk|[]]]]]]];
    injection Hk as <- <-; reflexivity.
Qed.

(** The table entry of [PUSH_EXTERNAL]. *)
Lemma source_name_extends_table_witness :
  AudioFrameHandleInfo.source_name !! 4 = Some "push-external"
  ∧ AudioFrameHandleInfo.getAudioFrameSourceName 4 = "push-external".
Proof.
  assert (H : AudioFrameHandleInfo.source_name !! 4 = Some "push-external")
    by reflexivity.
  split; [exact H|]. exact (source_name_extends_table 4 "push-external" H).
Defined.

(** X4: names compose in bit order: when every source bit of [a] lies below
    bit [k] and every source bit of [b] at or above it, the name of the
    combined type is the name of [a], a bar, and the name of [b]. *)
Theorem source_name_of_union (a b k : Z) :
  0 ≤ k ≤ 5 → 0 < a < 2 ^ k → 0 < b < 32 → b `mod` 2 ^ k = 0 →
  AudioFrameHandleInfo.getAudioFrameSourceName (Z.lor a b)
  = AudioFrameHandleInfo.getAudioFrameSourceName a
    +:+ "|" +:+ AudioFrameHandleInfo.getAudioFrameSourceName b.
Proof.
  intros Hk Ha Hb Hmod.
  assert (0 ≤ a < 32) as Ha32.
  { split; [lia|]. apply Z.lt_le_trans with (2 ^ k); [lia|].
    change 32 with (2 ^ 5). apply Z.pow_le_mono_r; lia. }
  assert (Forall (λ a, Forall (λ b, Forall (λ k,
            0 < a < 2 ^ k → 0 < b → b `mod` 2 ^ k = 0 →
            AudioFrameHandleInfo.getAudioFrameSourceName (Z.lor a b)
            = AudioFrameHandleInfo.getAudioFrameSourceName a
              +:+ "|" +:+ AudioFrameHandleInfo.getAudioFrameSourceName b)
          (seqZ 0 6)) (seqZ 0 32)) (seqZ 0 32))
    as Hall.
  { apply (bool_decide_unpack _). by vm_compute. }
  rewrite Forall_forall in Hall.
  specialize (Hall a ltac:(apply elem_of_seqZ; lia)).
  rewrite Forall_forall in Hall.
  specialize (Hall b ltac:(apply elem_of_seqZ; lia)).
  rewrite Forall_forall in Hall.
  specialize (Hall k ltac:(apply elem_of_seqZ; lia)).
  apply Hall; [done|lia|done].
Qed.

(** [RECORD | PUSH_DIRECT] combined with [SIMPLE_MEDIA_PLAYER]. *)
Lemma source_name_of_union_witness :
  AudioFrameHandleInfo.getAudioFrameSourceName (Z.lor 3 8)
  = "record|push-direct|simple_media_player".
Proof.
  rewrite (source_name_of_union 3 8 2); [reflexivity|lia|lia|lia|reflexivity].
Defined.

(** ** Copying an [AudioFrameHandleInfo] *)

Section StdCopy.
Context {A : Type}.
Implicit Types (src dst : list A).

Lemma std_copy_S (n : nat) src dst :
  std_copy (S n) src dst
  = match src !! n with
    | Some x => <[n:=x]> (std_copy n src dst)
    | None => std_copy n src dst
    end.
Proof. unfold std_copy. by rewrite seq_S, foldl_snoc. Qed.

Lemma std_copy_length (n : nat) src dst : length (std_copy n src dst) = length dst.
Proof.
  induction n as [|n IH]; [done|]. rewrite std_copy_S.
  destruct (src !! n); [by rewrite length_insert|done].
Qed.

(** After copying [n] elements the destination holds the source below
    index [n] and its old content from there on. *)
Lemma std_copy_lookup (n : nat) src dst (j : nat) :
  (n ≤ length src)%nat → (n ≤ length dst)%nat →
  std_copy n src dst !! j = if decide (j < n)%nat then src !! j else dst !! j.
Proof.
  induction n as [|n IH]; intros Hsrc Hdst.
  - by rewrite decide_False by lia.
  - rewrite std_copy_S.
    destruct (lookup_lt_is_Some_2 src n ltac:(lia)) as [x Hx]. rewrite Hx.
    destruct (decide (j = n)) as [->|Hne].
    + rewrite list_lookup_insert_eq by (rewrite std_copy_length; lia).
      by rewrite decide_True by lia.
    + rewrite list_lookup_insert_ne by done. rewrite IH by lia.
      repeat case_decide; done || lia.
Qed.

(** Copying a whole array makes the destination equal to the source. *)
Lemma std_copy_all (n : nat) src dst :
  length src = n → length dst = n → std_copy n src dst = src.
Proof.
  intros Hsrc Hdst. apply list_eq. intros j.
  rewrite std_copy_lookup by lia. case_decide; [done|].
  rewrite !lookup_ge_None_2; done || lia.
Qed.

End StdCopy.

(** X5: assigning from, or copy-constructing from, an info yields an object
    equal to it in every member, all ten timestamps included; in
    particular the copy is valid exactly when the original is. *)
Theorem handle_info_copy_is_faithful (rhs this : AudioFrameHandleInfo.t) :
  AudioFrameHandleInfo.well_formed rhs →
  AudioFrameHandleInfo.well_formed this →
  AudioFrameHandleInfo.operator_assign rhs this = rhs
  ∧ AudioFrameHandleInfo.copy_ctor rhs = rhs
  ∧ AudioFrameHandleInfo.valid (AudioFrameHandleInfo.operator_assign rhs this)
    = AudioFrameHandleInfo.valid rhs.
Proof.
  unfold AudioFrameHandleInfo.well_formed. intros Hrhs Hthis.
  assert (∀ dst : AudioFrameHandleInfo.t,
            length (AudioFrameHandleInfo.time_us dst)
              = AudioFrameHandleInfo.timing_index AudioFrameHandleInfo.TIMING_COUNT →
            AudioFrameHandleInfo.operator_assign rhs dst = rhs) as Hassign.
  { intros dst Hdst. unfold AudioFrameHandleInfo.operator_assign.
    rewrite std_copy_all by done. by destruct rhs. }
  split_and!.
  - by apply Hassign.
  - by apply Hassign.
  - by rewrite Hassign.
Qed.

(** An info with timestamps 1, ..., 10 is assigned to a fresh one. *)
Lemma handle_info_copy_is_faithful_witness :
  AudioFrameHandleInfo.operator_assign
    (AudioFrameHandleInfo.mk true [1; 2; 3; 4; 5; 6; 7; 8; 9; 10] 3)
    AudioFrameHandleInfo.ctor
  = AudioFrameHandleInfo.mk true [1; 2; 3; 4; 5; 6; 7; 8; 9; 10] 3.
Proof.
  apply (handle_info_copy_is_faithful
           (AudioFrameHandleInfo.mk true [1; 2; 3; 4; 5; 6; 7; 8; 9; 10] 3)
           AudioFrameHandleInfo.ctor); reflexivity.
Defined.

(** X6: a valid info has a source type of at least 0, a [FORMAT_FRAME]
    timestamp of at least 1 and a later [VOS_SEND] timestamp; validity looks
    at nothing else: the mute flag and the eight other timestamps can be
    set to anything without changing it; and a default-constructed info is
    not valid. *)
Theorem handle_info_valid_reads_two_timestamps
    (this : AudioFrameHandleInfo.t)
    (x : AudioFrameHandleInfo.AUDIO_UPLINK_HANDLE_TIMING) (v : Z) (mute : bool) :
  (AudioFrameHandleInfo.valid this = true →
     0 ≤ AudioFrameHandleInfo.source_type this
     ∧ 1 ≤ AudioFrameHandleInfo.time_at AudioFrameHandleInfo.FORMAT_FRAME this
     ∧ AudioFrameHandleInfo.time_at AudioFrameHandleInfo.FORMAT_FRAME this
       < AudioFrameHandleInfo.time_at AudioFrameHandleInfo.VOS_SEND this)
  ∧ (x ≠ AudioFrameHandleInfo.FORMAT_FRAME → x ≠ AudioFrameHandleInfo.VOS_SEND →
       AudioFrameHandleInfo.valid
         (AudioFrameHandleInfo.mk mute
            (<[AudioFrameHandleInfo.timing_index x := v]> (AudioFrameHandleInfo.time_us this))
            (AudioFrameHandleInfo.source_type this))
       = AudioFrameHandleInfo.valid this)
  ∧ AudioFrameHandleInfo.valid AudioFrameHandleInfo.ctor = false.
Proof.
  split_and!.
  - unfold AudioFrameHandleInfo.valid.
    intros [[H1 H2]%andb_prop H3]%andb_prop.
    apply Z.leb_le in H1. apply Z.ltb_lt in H2. apply Z.ltb_lt in H3. lia.
  - intros Hff Hvos.
    unfold AudioFrameHandleInfo.valid, AudioFrameHandleInfo.time_at. simpl.
    rewrite !list_lookup_insert_ne; [done|by destruct x..].
  - reflexivity.
Qed.

(** The [ENCODED] timestamp of a valid info is overwritten. *)
Lemma handle_info_valid_reads_two_timestamps_witness :
  AudioFrameHandleInfo.valid
    (AudioFrameHandleInfo.mk true
       (<[6%nat := -5]> [1; 2; 3; 4; 5; 6; 7; 8; 9; 10]) 3)
  = AudioFrameHandleInfo.valid
      (AudioFrameHandleInfo.mk false [1; 2; 3; 4; 5; 6; 7; 8; 9; 10] 3).
Proof.
  apply (proj1 (proj2 (handle_info_valid_reads_two_timestamps
                         (AudioFrameHandleInfo.mk false [1; 2; 3; 4; 5; 6; 7; 8; 9; 10] 3)
                         AudioFrameHandleInfo.ENCODED (-5) true))); discriminate.
Defined.

(** ** Copying a [ContentInspectConfigEx] *)

Section ContentInspectFacts.
Context {CONTENT_INSPECT_TYPE ContentInspectModule ContentInspectConfig : Type}.
Context {IFileUploaderService_ptr : Type}.
Variable CONTENT_INSPECT_INVALID : CONTENT_INSPECT_TYPE.
Variable ContentInspectModule_ctor : ContentInspectModule.

Local Abbreviation ModuleEx :=
  (@ContentInspect.ContentInspectModuleEx CONTENT_INSPECT_TYPE ContentInspectModule).
Local Abbreviation ConfigEx :=
  (@ContentInspect.ContentInspectConfigEx
     CONTENT_INSPECT_TYPE ContentInspectModule IFileUploaderService_ptr).
Local Abbreviation default_module :=
  (ContentInspect.ContentInspectModuleEx_ctor
     CONTENT_INSPECT_INVALID ContentInspectModule_ctor).
Local Abbreviation is_plain :=
  (ContentInspect.plain_module ContentInspectModule_ctor).

Implicit Types (m d : ModuleEx) (dst : list ModuleEx) (rth this : ConfigEx).

Section Loop.
Context {Src : Type} (src_type : Src → CONTENT_INSPECT_TYPE) (src_interval : Src → Z).
Implicit Types (src : list Src).

(** What one turn of the loop writes into an element. *)
Local Abbreviation written_here :=
  (λ (s : Src) (m : ModuleEx),
     ContentInspect.set_type_interval (src_type s) (src_interval s) m).

Lemma copy_modules_S (n : nat) src dst :
  ContentInspect.copy_modules (S n) src_type src_interval src dst
  = match src !! n, ContentInspect.copy_modules n src_type src_interval src dst !! n with
    | Some s, Some m =>
        <[n := written_here s m]> (ContentInspect.copy_modules n src_type src_interval src dst)
    | _, _ => ContentInspect.copy_modules n src_type src_interval src dst
    end.
Proof. unfold ContentInspect.copy_modules. by rewrite seq_S, foldl_snoc. Qed.

Lemma copy_modules_length (n : nat) src dst :
  length (ContentInspect.copy_modules n src_type src_interval src dst) = length dst.
Proof.
  induction n as [|n IH]; [done|]. rewrite copy_modules_S.
  destruct (src !! n); [|done].
  destruct (_ !! n); [by rewrite length_insert|done].
Qed.

Lemma copy_modules_lookup (n : nat) src dst (j : nat) :
  (n ≤ length src)%nat → (n ≤ length dst)%nat →
  ContentInspect.copy_modules n src_type src_interval src dst !! j
  = if decide (j < n)%nat
    then s ← src !! j; m ← dst !! j; Some (written_here s m)
    else dst !! j.
Proof.
  revert j. induction n as [|n IH]; intros j Hsrc Hdst.
  - by rewrite decide_False by lia.
  - rewrite copy_modules_S.
    destruct (lookup_lt_is_Some_2 src n ltac:(lia)) as [s Hs].
    destruct (lookup_lt_is_Some_2 dst n ltac:(lia)) as [m Hm].
    rewrite Hs. rewrite (IH n) by lia. rewrite decide_False by lia. rewrite Hm.
    destruct (decide (j = n)) as [->|Hne].
    + rewrite list_lookup_insert_eq by (rewrite copy_modules_length; lia).
      rewrite decide_True by lia. by rewrite Hs, Hm.
    + rewrite list_lookup_insert_ne by done. rewrite IH by lia.
      repeat case_decide; done || lia.
Qed.

(** Over whole arrays the loop is an element-wise combination. *)
Lemma copy_modules_zip (n : nat) src dst :
  length src = n → length dst = n →
  ContentInspect.copy_modules n src_type src_interval src dst
  = zip_with written_here src dst.
Proof.
  intros Hsrc Hdst. apply list_eq. intros j.
  rewrite copy_modules_lookup, lookup_zip_with by lia.
  case_decide; [done|].
  rewrite (lookup_ge_None_2 src), (lookup_ge_None_2 dst) by lia. done.
Qed.

End Loop.

Local Abbreviation written ty iv :=
  (λ s (m : ModuleEx), ContentInspect.set_type_interval (ty s) (iv s) m).

Lemma written_twice {Src1 Src2 : Type}
    (ty1 : Src1 → CONTENT_INSPECT_TYPE) (iv1 : Src1 → Z)
    (ty2 : Src2 → CONTENT_INSPECT_TYPE) (iv2 : Src2 → Z) (s1 : Src1) (s2 : Src2) m :
  written ty1 iv1 s1 (written ty2 iv2 s2 m) = written ty1 iv1 s1 m.
Proof. reflexivity. Qed.

(** Writing a module's own [type] and [interval] into a default module
    gives the module back exactly when it is plain. *)
Lemma written_default_fixed m :
  written ContentInspect.type ContentInspect.interval m default_module = m
  ↔ is_plain m.
Proof.
  unfold ContentInspect.set_type_interval, ContentInspect.plain_module.
  destruct m as [b ty v url tok iv]; simpl. split.
  - intros [= <- <- <- <-]. done.
  - intros (-> & -> & -> & ->). done.
Qed.

Lemma written_default_plain {Src : Type}
    (ty : Src → CONTENT_INSPECT_TYPE) (iv : Src → Z) (s : Src) :
  is_plain (written ty iv s default_module).
Proof. done. Qed.

(** The modules of a copy-constructed config. *)
Lemma copy_ctor_modules (n : nat) rth :
  ContentInspect.well_formed n rth →
  ContentInspect.modules
    (ContentInspect.copy_ctor CONTENT_INSPECT_INVALID n ContentInspectModule_ctor rth)
  = (λ s, written ContentInspect.type ContentInspect.interval s default_module)
      <$> ContentInspect.modules rth.
Proof.
  unfold ContentInspect.well_formed. intros Hwf. simpl.
  unfold ContentInspect.modules_ctor.
  rewrite (copy_modules_zip _ _ n) by (by rewrite ?length_replicate).
  by rewrite zip_with_replicate_r_eq.
Qed.

(** X7: after [this = rth] every member of [this] other than the modules
    equals that of [rth], and module [i] of [this] has the [type] and
    [interval] of module [i] of [rth] but still its own base part, [vendor],
    [callbackUrl] and [token]: the assignment never copies those. *)
Theorem config_assign_keeps_vendor (n : nat) rth this :
  ContentInspect.well_formed n rth →
  ContentInspect.well_formed n this →
  ContentInspect.well_formed n (ContentInspect.operator_assign n rth this)
  ∧ ContentInspect.operator_assign n rth this
    = ContentInspect.mkConfig
        (ContentInspect.enable rth) (ContentInspect.ContentWorkType rth)
        (ContentInspect.DeviceWorkType rth) (ContentInspect.CloudWorkType rth)
        (ContentInspect.extraInfo rth) (ContentInspect.serverConfig rth)
        (ContentInspect.fileUploader rth)
        (ContentInspect.modules (ContentInspect.operator_assign n rth this))
        (ContentInspect.moduleCount rth)
  ∧ ∀ (i : nat) (s d : ModuleEx),
      ContentInspect.modules rth !! i = Some s →
      ContentInspect.modules this !! i = Some d →
      ContentInspect.modules (ContentInspect.operator_assign n rth this) !! i
      = Some (ContentInspect.mkModule
                (ContentInspect.base d) (ContentInspect.type s)
                (ContentInspect.vendor d) (ContentInspect.callbackUrl d)
                (ContentInspect.token d) (ContentInspect.interval s)).
Proof.
  unfold ContentInspect.well_formed. intros Hrth Hthis. split_and!.
  - simpl. by rewrite copy_modules_length.
  - reflexivity.
  - intros i s d Hs Hd. simpl.
    rewrite (copy_modules_zip _ _ n), lookup_zip_with by done.
    by rewrite Hs, Hd.
Qed.

(** X8: a copy-constructed config equals the original exactly when every
    module of the original is plain, that is, has a default base part, the
    vendor [CONTENT_INSPECT_VENDOR_AGORA] and empty [callbackUrl] and
    [token]; otherwise the copy has lost them. *)
Theorem config_copy_faithful_iff (n : nat) rth :
  ContentInspect.well_formed n rth →
  ContentInspect.copy_ctor CONTENT_INSPECT_INVALID n ContentInspectModule_ctor rth = rth
  ↔ Forall is_plain (ContentInspect.modules rth).
Proof.
  intros Hwf.
  transitivity
    ((λ s, written ContentInspect.type ContentInspect.interval s default_module)
       <$> ContentInspect.modules rth
     = id <$> ContentInspect.modules rth).
  - rewrite <- (copy_ctor_modules n rth Hwf), list_fmap_id. split.
    + by intros ->.
    + intros Hmods. destruct rth. simpl in Hmods.
      unfold ContentInspect.copy_ctor. simpl. by rewrite Hmods.
  - rewrite <- Forall_fmap_ext. apply Forall_iff. intros m.
    apply written_default_fixed.
Qed.

(** X9: assignments compose as if only the last one had happened, an
    assignment done twice is the assignment done once, and a copy of a copy
    is the copy. *)
Theorem config_assign_last_wins (n : nat) (a b c : ConfigEx) :
  ContentInspect.well_formed n a →
  ContentInspect.well_formed n b →
  ContentInspect.well_formed n c →
  ContentInspect.operator_assign n c (ContentInspect.operator_assign n b a)
  = ContentInspect.operator_assign n c a
  ∧ ContentInspect.operator_assign n b (ContentInspect.operator_assign n b a)
    = ContentInspect.operator_assign n b a
  ∧ ContentInspect.copy_ctor CONTENT_INSPECT_INVALID n ContentInspectModule_ctor
      (ContentInspect.copy_ctor CONTENT_INSPECT_INVALID n ContentInspectModule_ctor b)
    = ContentInspect.copy_ctor CONTENT_INSPECT_INVALID n ContentInspectModule_ctor b.
Proof.
  unfold ContentInspect.well_formed. intros Ha Hb Hc.
  assert (∀ x y : ConfigEx,
            length (ContentInspect.modules x) = n →
            length (ContentInspect.modules y) = n →
            ContentInspect.operator_assign n x (ContentInspect.operator_assign n y a)
            = ContentInspect.operator_assign n x a) as Hlast.
  { intros x y Hx Hy. unfold ContentInspect.operator_assign. simpl. f_equal.
    rewrite (copy_modules_zip _ _ n (ContentInspect.modules y)) by done.
    rewrite !(copy_modules_zip _ _ n (ContentInspect.modules x))
      by (rewrite ?length_zip_with_l_eq; congruence).
    apply list_eq. intros i. rewrite !lookup_zip_with.
    destruct (ContentInspect.modules x !! i); [|done]. simpl.
    destruct (ContentInspect.modules y !! i) eqn:Hy'; simpl.
    - by destruct (ContentInspect.modules a !! i).
    - apply lookup_ge_None in Hy'.
      by rewrite (lookup_ge_None_2 (ContentInspect.modules a)) by lia. }
  split_and!.
  - by apply Hlast.
  - by apply Hlast.
  - unfold ContentInspect.copy_ctor at 1 3. simpl. f_equal.
    pose proof (copy_ctor_modules n b Hb) as Hmods. simpl in Hmods.
    unfold ContentInspect.modules_ctor.
    rewrite (copy_modules_zip _ _ n)
      by (rewrite ?copy_modules_length, ?length_replicate; done).
    rewrite zip_with_replicate_r_eq by (by rewrite copy_modules_length, length_replicate).
    unfold ContentInspect.modules_ctor in Hmods. rewrite Hmods.
    rewrite <- list_fmap_compose. by apply list_fmap_ext.
Qed.

(** X10: a config built by the converting constructor takes [moduleCount]
    from the base config as it is, without comparing it with the array
    bound; its work types are cloud and device-invalid whatever the base
    config holds; a [NULL] [extraInfo] or [serverConfig] becomes the empty
    string; all its modules are plain, so that copying it loses nothing. *)
Theorem config_from_base_survives_copy (n : nat)
    (module_type : ContentInspectModule → CONTENT_INSPECT_TYPE)
    (module_interval : ContentInspectModule → Z)
    (config_extraInfo config_serverConfig : ContentInspectConfig → option string)
    (config_modules : ContentInspectConfig → list ContentInspectModule)
    (config_moduleCount : ContentInspectConfig → Z)
    (enable : bool) (config : ContentInspectConfig)
    (uploader : IFileUploaderService_ptr)
    (cloudWorkType : ContentInspect.CONTENT_INSPECT_CLOUD_TYPE) :
  length (config_modules config) = n →
  let x : ConfigEx :=
    ContentInspect.ctor_from_config CONTENT_INSPECT_INVALID n ContentInspectModule_ctor
      module_type module_interval config_extraInfo config_serverConfig
      config_modules config_moduleCount enable config uploader cloudWorkType in
  ContentInspect.copy_ctor CONTENT_INSPECT_INVALID n ContentInspectModule_ctor x = x
  ∧ Forall is_plain (ContentInspect.modules x)
  ∧ ContentInspect.well_formed n x
  ∧ ContentInspect.moduleCount x = config_moduleCount config
  ∧ ContentInspect.ContentWorkType x = ContentInspect.CONTENT_INSPECT_WORK_CLOUD
  ∧ ContentInspect.DeviceWorkType x = ContentInspect.CONTENT_INSPECT_DEVICE_INVALID
  ∧ (config_extraInfo config = None → ContentInspect.extraInfo x = "")
  ∧ (config_serverConfig config = None → ContentInspect.serverConfig x = "").
Proof.
  intros Hlen x.
  assert (ContentInspect.modules x
          = (λ s, written module_type module_interval s default_module)
              <$> config_modules config) as Hmods.
  { subst x. simpl. unfold ContentInspect.modules_ctor.
    rewrite (copy_modules_zip _ _ n) by (by rewrite ?length_replicate).
    by rewrite zip_with_replicate_r_eq. }
  assert (Forall is_plain (ContentInspect.modules x)) as Hplain.
  { rewrite Hmods. apply Forall_fmap, Forall_forall. intros s _.
    apply written_default_plain. }
  assert (ContentInspect.well_formed n x) as Hwf.
  { unfold ContentInspect.well_formed. by rewrite Hmods, length_fmap. }
  split_and!; try done.
  - transitivity
      (ContentInspect.mkConfig
         (ContentInspect.enable x) (ContentInspect.ContentWorkType x)
         (ContentInspect.DeviceWorkType x) (ContentInspect.CloudWorkType x)
         (ContentInspect.extraInfo x) (ContentInspect.serverConfig x)
         (ContentInspect.fileUploader x)
         (ContentInspect.modules
            (ContentInspect.copy_ctor CONTENT_INSPECT_INVALID n
               ContentInspectModule_ctor x))
         (ContentInspect.moduleCount x)); [reflexivity|].
    rewrite (copy_ctor_modules n x Hwf).
    replace ((λ s, written ContentInspect.type ContentInspect.interval s default_module)
               <$> ContentInspect.modules x)
      with (ContentInspect.modules x); [reflexivity|].
    rewrite <- (list_fmap_id (ContentInspect.modules x)) at 1.
    apply Forall_fmap_ext. eapply Forall_impl; [exact Hplain|].
    intros m Hm. symmetry. by apply written_default_fixed.
  - subst x. simpl. by intros ->.
  - subst x. simpl. by intros ->.
Qed.

End ContentInspectFacts.

(** [sample_config] is assigned to [fresh_config]: module 0 gets type 3 and
    interval 5 and keeps the default vendor and empty strings. *)
Lemma config_assign_keeps_vendor_witness :
  ContentInspect.modules (ContentInspect.operator_assign 2 sample_config fresh_config)
    !! 0%nat
  = Some (ContentInspect.mkModule (0%nat, 0) 3%nat
            ContentInspect.CONTENT_INSPECT_VENDOR_AGORA "" "" 5).
Proof.
  apply (proj2 (proj2 (config_assign_keeps_vendor 2 sample_config fresh_config
                         eq_refl eq_refl))
           0%nat sample_module
           (ContentInspect.ContentInspectModuleEx_ctor 0%nat (0%nat, 0)));
    reflexivity.
Defined.

(** The copy of [sample_config] is not [sample_config]: module 0 is not
    plain. *)
Lemma config_copy_faithful_iff_witness :
  ContentInspect.copy_ctor 0%nat 2 (0%nat, 0) sample_config ≠ sample_config.
Proof.
  intros Hcopy.
  apply (config_copy_faithful_iff 0%nat (0%nat, 0) 2 sample_config eq_refl) in Hcopy.
  apply Forall_cons_1 in Hcopy as [(_ & Hvendor & _) _].
  discriminate Hvendor.
Defined.

(** [fresh_config] is assigned from a copy of [sample_config] and then from
    [sample_config]. *)
Lemma config_assign_last_wins_witness :
  ContentInspect.operator_assign 2 sample_config
    (ContentInspect.operator_assign 2
       (ContentInspect.copy_ctor 0%nat 2 (0%nat, 0) sample_config) fresh_config)
  = ContentInspect.operator_assign 2 sample_config fresh_config.
Proof.
  apply (proj1 (config_assign_last_wins 0%nat (0%nat, 0) 2 fresh_config
                  (ContentInspect.copy_ctor 0%nat 2 (0%nat, 0) sample_config)
                  sample_config eq_refl eq_refl eq_refl)).
Defined.

(** A base config, held as the tuple of its four members, whose
    [moduleCount] of 40 exceeds its two modules. *)
Lemma config_from_base_survives_copy_witness :
  ContentInspect.moduleCount
    (ContentInspect.ctor_from_config (ContentInspectConfig := unit)
       0%nat 2 (0%nat, 0) fst snd
       (λ _, None) (λ _, Some "server") (λ _, [(1%nat, 10); (2%nat, 20)]) (λ _, 40)
       true () (Some 7%nat) ContentInspect.CONTENT_INSPECT_CLOUD_AGORA)
  = 40.
Proof.
  apply (config_from_base_survives_copy (ContentInspectConfig := unit)
           0%nat (0%nat, 0) 2 fst snd
           (λ _, None) (λ _, Some "server") (λ _, [(1%nat, 10); (2%nat, 20)]) (λ _, 40)
           true () (Some 7%nat) ContentInspect.CONTENT_INSPECT_CLOUD_AGORA eq_refl).
Defined.

(** ** Comparing recorder stream formats *)

(** X11: [VDataInfo::equal] is an equivalence relation that holds exactly
    when codec, width, height and rotation agree; the frame type plays no
    part, so two infos that differ only in [frameType] are equal. *)
Theorem vdata_equal_is_equivalence :
  Equivalence (λ a b : VDataInfo.t, VDataInfo.equal a b = true)
  ∧ (∀ a b : VDataInfo.t,
       VDataInfo.equal a b = true
       ↔ VDataInfo.codec a = VDataInfo.codec b
         ∧ VDataInfo.width a = VDataInfo.width b
         ∧ VDataInfo.height a = VDataInfo.height b
         ∧ VDataInfo.rotation a = VDataInfo.rotation b)
  ∧ (∀ (a : VDataInfo.t) (ft : Z),
       VDataInfo.equal a
         (VDataInfo.mk (VDataInfo.codec a) (VDataInfo.width a) (VDataInfo.height a)
            ft (VDataInfo.rotation a)) = true).
Proof.
  assert (Hiff : ∀ a b : VDataInfo.t,
            VDataInfo.equal a b = true
            ↔ VDataInfo.codec a = VDataInfo.codec b
              ∧ VDataInfo.width a = VDataInfo.width b
              ∧ VDataInfo.height a = VDataInfo.height b
              ∧ VDataInfo.rotation a = VDataInfo.rotation b).
  { intros a b. unfold VDataInfo.equal.
    rewrite !andb_true_iff, !Z.eqb_eq. tauto. }
  split_and!.
  - split.
    + intros a. by apply Hiff.
    + intros a b Hab. apply Hiff in Hab. apply Hiff. intuition congruence.
    + intros a b c Hab Hbc. apply Hiff in Hab, Hbc. apply Hiff. intuition congruence.
  - exact Hiff.
  - intros a ft. by apply Hiff.
Qed.

(** X12: [ADataInfo::equal] is an equivalence relation that holds exactly
    when codec, bit width, sample rate and channel count agree; the sample
    size plays no part. *)
Theorem adata_equal_is_equivalence :
  Equivalence (λ a b : ADataInfo.t, ADataInfo.equal a b = true)
  ∧ (∀ a b : ADataInfo.t,
       ADataInfo.equal a b = true
       ↔ ADataInfo.codec a = ADataInfo.codec b
         ∧ ADataInfo.bitwidth a = ADataInfo.bitwidth b
         ∧ ADataInfo.sample_rate a = ADataInfo.sample_rate b
         ∧ ADataInfo.channel a = ADataInfo.channel b)
  ∧ (∀ (a : ADataInfo.t) (size : Z),
       ADataInfo.equal a
         (ADataInfo.mk (ADataInfo.codec a) (ADataInfo.bitwidth a)
            (ADataInfo.sample_rate a) (ADataInfo.channel a) size) = true).
Proof.
  assert (Hiff : ∀ a b : ADataInfo.t,
            ADataInfo.equal a b = true
            ↔ ADataInfo.codec a = ADataInfo.codec b
              ∧ ADataInfo.bitwidth a = ADataInfo.bitwidth b
              ∧ ADataInfo.sample_rate a = ADataInfo.sample_rate b
              ∧ ADataInfo.channel a = ADataInfo.channel b).
  { intros a b. unfold ADataInfo.equal.
    rewrite !andb_true_iff, !Z.eqb_eq. tauto. }
  split_and!.
  - split.
    + intros a. by apply Hiff.
    + intros a b Hab. apply Hiff in Hab. apply Hiff. intuition congruence.
    + intros a b c Hab Hbc. apply Hiff in Hab, Hbc. apply Hiff. intuition congruence.
  - exact Hiff.
  - intros a size. by apply Hiff.
Qed.

(** ** Local video tracks in a process *)

(** The number of constructions in a history. *)
Lemma tracks_count_constructs (p : Process) (steps : list ProcessStep) :
  length (tracks (process_run p steps))
  = (length (tracks p)
     + constructions steps)%nat.
Proof.
  unfold constructions.
  revert p. induction steps as [|s steps IH]; intros p; [simpl; lia|].
  unfold process_run. simpl. fold (process_run (process_step p s) steps).
  rewrite IH. destruct s as [garbage|i uid].
  - rewrite filter_cons_True by done. simpl. rewrite length_app. simpl. lia.
  - rewrite filter_cons_False by done. simpl. by rewrite length_alter.
Qed.

(** X13: whatever a process does, its [i]-th local video track carries the
    generator's start value advanced [i] times in 32-bit two's complement;
    the process has as many tracks as its history has constructions, the
    generator afterwards holds the start value advanced by that number, and
    a track constructed 2^32 constructions after another gets the same id. *)
Theorem track_id_closed_form (g : Z) (steps : list ProcessStep)
    (i : nat) (trk : ILocalVideoTrackEx.t) :
  in_int g →
  tracks (process_run (process_start g) steps) !! i = Some trk →
  ILocalVideoTrackEx.TrackId trk = wrap_int (g + Z.of_nat i)
  ∧ length (tracks (process_run (process_start g) steps))
    = constructions steps
  ∧ id_generator_ (process_run (process_start g) steps)
    = wrap_int (g + Z.of_nat (length (tracks (process_run (process_start g) steps))))
  ∧ (∀ (j : nat) (trk' : ILocalVideoTrackEx.t),
       Z.of_nat j = Z.of_nat i + 2 ^ 32 →
       tracks (process_run (process_start g) steps) !! j = Some trk' →
       ILocalVideoTrackEx.TrackId trk' = ILocalVideoTrackEx.TrackId trk).
Proof.
  intros Hg Hlook. destruct (process_run_ids g steps Hg) as [Hgen Hids].
  split_and!.
  - by apply Hids.
  - by rewrite tracks_count_constructs.
  - exact Hgen.
  - intros j trk' Hj Hlook'.
    rewrite (Hids i trk Hlook), (Hids j trk' Hlook'), Hj.
    unfold wrap_int. f_equal.
    replace (g + (Z.of_nat i + 2 ^ 32) + 2 ^ 31)
      with (g + Z.of_nat i + 2 ^ 31 + 1 * 2 ^ 32) by lia.
    by rewrite Z_mod_plus_full.
Qed.

(** Two tracks are constructed from [INT_MAX]; the second one gets
    [INT_MIN]. *)
Lemma track_id_closed_form_witness :
  ILocalVideoTrackEx.TrackId (ILocalVideoTrackEx.mk (-2147483648) 0)
  = wrap_int (INT_MAX + Z.of_nat 1).
Proof.
  apply (track_id_closed_form INT_MAX [Construct 0; SetUserId 0 9; Construct 0] 1
           (ILocalVideoTrackEx.mk (-2147483648) 0)).
  - unfold in_int, INT_MIN, INT_MAX. lia.
  - reflexivity.
Defined.

(** X14: setting the user id of the [i]-th track of a process makes
    [getUserId] of that track return the new id, and changes nothing else:
    every other track, every track id, the number of tracks and the id
    generator stay as they were. *)
Theorem set_user_id_touches_one_track (p : Process) (i : nat) (uid : uid_t) :
  (∀ trk : ILocalVideoTrackEx.t,
     tracks p !! i = Some trk →
     ILocalVideoTrackEx.getUserId <$> tracks (process_step p (SetUserId i uid)) !! i
     = Some uid)
  ∧ (∀ j : nat, j ≠ i →
       tracks (process_step p (SetUserId i uid)) !! j = tracks p !! j)
  ∧ track_ids (process_step p (SetUserId i uid)) = track_ids p
  ∧ length (tracks (process_step p (SetUserId i uid))) = length (tracks p)
  ∧ id_generator_ (process_step p (SetUserId i uid)) = id_generator_ p.
Proof.
  split_and!.
  - intros trk Hlook. simpl. by rewrite list_lookup_alter_eq, Hlook.
  - intros j Hne. simpl. by rewrite list_lookup_alter_ne.
  - unfold track_ids. simpl. apply list_eq. intros j.
    rewrite !list_lookup_fmap. destruct (decide (j = i)) as [->|Hne].
    + rewrite list_lookup_alter_eq. by destruct (tracks p !! i).
    + by rewrite list_lookup_alter_ne.
  - simpl. by rewrite length_alter.
  - reflexivity.
Qed.

(** The user id of the second of two tracks is set to 42. *)
Lemma set_user_id_touches_one_track_witness :
  ILocalVideoTrackEx.getUserId
    <$> tracks (process_step
                  (process_run (process_start 5) [Construct 0; Construct 0])
                  (SetUserId 1 42)) !! 1%nat
  = Some 42.
Proof.
  apply (proj1 (set_user_id_touches_one_track
                  (process_run (process_start 5) [Construct 0; Construct 0]) 1 42)
           (ILocalVideoTrackEx.mk 6 0)).
  reflexivity.
Defined.
